(** * me-dashboard: the staking dashboard's computational core

    A shallow embedding of the TypeScript sources

    - [types.ts]     the [Staker] and [StakerSnapshot] records,
    - [utils.ts]     [calcVotingPower], [getPercentileThresholds],
    - [mockData.ts]  the bundled sample snapshot,
    - [App.tsx]      the fetcher ([fetchData]), the render gate and the
                     day-bucket aggregation ([dailyAggregation], [allDays],
                     [dailyData], [cumulativeData]),
    - [ErrorBoundary.tsx] and [index.tsx].

    Conventions of the embedding.

    - A JavaScript [number] that carries a quantity (amounts, staking power,
      percentages, and every argument of [calcVotingPower]) is an exact
      rational [Q]; equality of results is [==] ([Qeq]).  Rounding,
      infinities and NaN of IEEE doubles are outside the model.  The only
      divisions the code performs are by the literal 100 and by a range that
      a guard has shown positive, so [Q]'s total division is never used at 0.
    - Unix timestamps (seconds) and [Date] values (milliseconds since the
      epoch) are integers [Z], taken inside the range where a [Date] is
      valid.
    - A day key ['yyyy-MM-dd'] is represented by the number of that calendar
      day counted from 1970-01-01; for the four-digit years the keys are
      written with, the string order used by [Array.prototype.sort] and by
      [<=] on strings is the order of these numbers.
    - The browser's time zone is a parameter: [tzOffset] is what
      [Date.prototype.getTimezoneOffset] returns, minutes to add to local
      time to reach UTC (300 for UTC-5, -540 for UTC+9), taken as constant.
    - [throw] is an explicit result: a call leaves [Thrown e] or
      [Returned v]. *)

From Stdlib Require Import ZArith QArith Qround Qminmax Lqa Lia String List.
From stdpp Require Import gmap strings list fin_maps sorting pretty.
From Equations Require Import Equations.

(** * Part I: the program *)

(** ** JavaScript values: comparisons, truthiness, exceptions *)

Module JS.

Definition le (x y : Q) : bool := Qle_bool x y.
Definition ge (x y : Q) : bool := Qle_bool y x.
Definition gt (x y : Q) : bool := negb (Qle_bool x y).

(** [x || 0] on a number: [x] unless it is falsy (zero). *)
Definition orZero (x : Q) : Q := if Qeq_bool x 0 then 0%Q else x.

(** Truthiness of an integer-valued number, of a number and of a string. *)
Definition truthyZ (z : Z) : bool := negb (z =? 0)%Z.
Definition truthyQ (x : Q) : bool := negb (Qeq_bool x 0).
Definition truthyStr (s : string) : bool := negb (String.eqb s "").

(** A thrown value: an [Error] with its message, or anything else. *)
Inductive exn : Type :=
| Error (message : string)
| NotAnError.

(** What a [throw] or a normal return leaves behind. *)
Inductive completion (A : Type) : Type :=
| Thrown (e : exn)
| Returned (value : A).
Arguments Thrown {A} e.
Arguments Returned {A} value.

(** [Math.floor] of a rational. *)
Definition floor (x : Q) : Z := Qfloor x.

End JS.

(** ** types.ts *)

Record Staker : Type := mkStaker {
  wallet : string;
  uiStakingPower : Q;
  uiAmount : Q;
  startTs : Z;
  endTs : Z;
  duration : Z
}.

Record StakerSnapshot : Type := mkStakerSnapshot {
  ts : string;
  totalUIStaked : Q;
  totalLockups : Z;
  totalUIStakingPower : Q;
  stakers : list Staker
}.

(** ** mockData.ts *)

Definition mockData : StakerSnapshot :=
  {| ts := "2024-03-20T15:30:00.000Z";
     totalUIStaked := 1379141712 # 100;
     totalLockups := 40812;
     totalUIStakingPower := 5227094573 # 100;
     stakers :=
       [ {| wallet := "AaBbCcDdEeFfGgHhIiJjKkLlMmNnOoPpQqRrSsTtUu";
            uiStakingPower := 400;
            uiAmount := 100;
            startTs := 1710945600;
            endTs := 1742481600;
            duration := 31536000 |};
         {| wallet := "VvWwXxYyZz11223344556677889900AaBbCcDdEe";
            uiStakingPower := 2000001 # 100;
            uiAmount := 10000;
            startTs := 1710945600;
            endTs := 1726617600;
            duration := 15672000 |} ] |}.

(** ** utils.ts *)

Module Utils.

Local Open Scope Q_scope.

(** [calcVotingPower], with its early returns as nested conditionals in
    the order of the source. *)
Definition calcVotingPower
    (lockupAmt lockupStartTs lockupEndTs lockupMinDuration
     lockupMaxSaturation lockupTargetVotingPct now : Q) : Q :=
  if JS.gt now lockupEndTs then 0
  else if JS.le lockupEndTs lockupStartTs then 0
  else
    let duration := lockupEndTs - lockupStartTs in
    let maxVotingPower := (lockupAmt * lockupTargetVotingPct) / 100 in
    let lockupDurationRange := lockupMaxSaturation - lockupMinDuration in
    if JS.le duration lockupMinDuration then lockupAmt
    else if JS.ge duration lockupMaxSaturation then maxVotingPower
    else if JS.le lockupDurationRange 0 then 0
    else
      lockupAmt +
      ((maxVotingPower - lockupAmt) * (duration - lockupMinDuration)) /
        (lockupMaxSaturation - lockupMinDuration).

(** [[...stakers].sort((a, b) => b.uiStakingPower - a.uiStakingPower)]:
    a stable sort of a copy, larger staking power first.  [insertDesc]
    puts an element in front of the first one it is not smaller than, so
    elements of equal power keep their order. *)
Fixpoint insertDesc (x : Staker) (l : list Staker) : list Staker :=
  match l with
  | [] => [x]
  | y :: l' =>
      if JS.ge (uiStakingPower x) (uiStakingPower y)
      then x :: y :: l'
      else y :: insertDesc x l'
  end.

Definition sortDesc (l : list Staker) : list Staker := foldr insertDesc [] l.

Record Thresholds : Type := mkThresholds { top1 : Q; top10 : Q }.

(** [arr[i]?.uiStakingPower || 0] *)
Definition powerAtOrZero (arr : list Staker) (i : Z) : Q :=
  match arr !! Z.to_nat i with
  | Some s => JS.orZero (uiStakingPower s)
  | None => 0
  end.

Definition getPercentileThresholds (stakers : list Staker) : Thresholds :=
  let sortedPowers := sortDesc stakers in
  let top1Index := JS.floor (inject_Z (Z.of_nat (length stakers)) * (1 # 100)) in
  let top10Index := JS.floor (inject_Z (Z.of_nat (length stakers)) * (1 # 10)) in
  {| top1 := powerAtOrZero sortedPowers top1Index;
     top10 := powerAtOrZero sortedPowers top10Index |}.

End Utils.

(** ** Dates: [Date], date-fns [format] with the pattern ['yyyy-MM-dd'] *)

Module DateFns.

Local Open Scope Z_scope.

Definition msPerDay : Z := 86400000.

(** [new Date(seconds * 1000)]: the instant, in milliseconds. *)
Definition dateOfSeconds (seconds : Z) : Z := seconds * 1000.

(** [new Date('yyyy-MM-dd')]: ECMAScript reads a date-only string as
    midnight UTC of that day. *)
Definition dateOfDayKey (dayKey : Z) : Z := dayKey * msPerDay.

(** [format(date, 'yyyy-MM-dd')]: the calendar day of [date] in local
    time, local time being UTC minus [tzOffset] minutes. *)
Definition format (tzOffset : Z) (date : Z) : Z :=
  (date - tzOffset * 60000) / msPerDay.

(** [date.setDate(date.getDate() + 1)]: the same local time on the next
    local day. *)
Definition nextDay (date : Z) : Z := date + msPerDay.

End DateFns.

(** ** App.tsx: the chart pipeline (delta accounting per day) *)

Module App.

Import DateFns.

Record DayDelta : Type := mkDayDelta {
  day : Z;
  deltaStakingPower : Q;
  deltaMeStaked : Q
}.

Record CumulativePoint : Type := mkCumulativePoint {
  pointDay : Z;
  totalStakingPower : Q;
  totalMeStaked : Q
}.

(** [acc[k] || { day: k, deltaStakingPower: 0, deltaMeStaked: 0 }] *)
Definition entryOr (acc : gmap Z DayDelta) (k : Z) : DayDelta :=
  default (mkDayDelta k 0 0) (acc !! k).

(** [acc[k] = acc[k] || {...}; acc[k].deltaStakingPower += p;
    acc[k].deltaMeStaked += a] *)
Definition addStake (acc : gmap Z DayDelta) (k : Z) (p a : Q) : gmap Z DayDelta :=
  let e := entryOr acc k in
  <[k := mkDayDelta (day e) (deltaStakingPower e + p) (deltaMeStaked e + a)]> acc.

(** The same with [-=]. *)
Definition subStake (acc : gmap Z DayDelta) (k : Z) (p a : Q) : gmap Z DayDelta :=
  let e := entryOr acc k in
  <[k := mkDayDelta (day e) (deltaStakingPower e - p) (deltaMeStaked e - a)]> acc.

(** The callback of [data.stakers.reduce]. *)
Definition aggregateStaker (tzOffset : Z) (acc : gmap Z DayDelta) (staker : Staker)
    : gmap Z DayDelta :=
  let startDay := format tzOffset (dateOfSeconds (startTs staker)) in
  let endDay :=
    if JS.truthyZ (endTs staker)
    then Some (format tzOffset (dateOfSeconds (endTs staker)))
    else None in
  let acc := addStake acc startDay (uiStakingPower staker) (uiAmount staker) in
  match endDay with
  | Some endDay => subStake acc endDay (uiStakingPower staker) (uiAmount staker)
  | None => acc
  end.

Definition dailyAggregation (tzOffset : Z) (stakers : list Staker) : gmap Z DayDelta :=
  fold_left (aggregateStaker tzOffset) stakers ∅.

(** [Object.keys(dailyAggregation)] *)
Definition daysFromData (agg : gmap Z DayDelta) : list Z := (map_to_list agg).*1.

(** The [while] loop that fills [allDays]: it runs as long as the local
    day of [currentDate] is not after today. *)
Equations? allDaysLoop (tzOffset currentDate todayStr : Z) (allDays : list Z)
    : list Z by wf (Z.to_nat (todayStr - format tzOffset currentDate + 1)) lt :=
  allDaysLoop tzOffset currentDate todayStr allDays
    with Z_le_gt_dec (format tzOffset currentDate) todayStr => {
    | left _ =>
        allDaysLoop tzOffset (nextDay currentDate) todayStr
                    (allDays ++ [format tzOffset currentDate]);
    | right _ => allDays }.
Proof.
  unfold nextDay, format, msPerDay in *.
  replace (currentDate + 86400000 - tzOffset * 60000)%Z
    with (currentDate - tzOffset * 60000 + 1 * 86400000)%Z by ring.
  rewrite Z.div_add by discriminate. lia.
Qed.

(** [allDays.map(day => ({ day, ...(dailyAggregation[day] || zero) }))]:
    the spread copies the stored entry, its [day] field included. *)
Definition dailyDataOf (agg : gmap Z DayDelta) (allDays : list Z) : list DayDelta :=
  map (entryOr agg) allDays.

(** [dailyData.map] with the two running totals it updates. *)
Fixpoint cumulate (cumulativeStakingPower cumulativeMeStaked : Q)
    (dailyData : list DayDelta) : list CumulativePoint :=
  match dailyData with
  | [] => []
  | item :: rest =>
      let cumulativeStakingPower := (cumulativeStakingPower + deltaStakingPower item)%Q in
      let cumulativeMeStaked := (cumulativeMeStaked + deltaMeStaked item)%Q in
      mkCumulativePoint (day item) cumulativeStakingPower cumulativeMeStaked
        :: cumulate cumulativeStakingPower cumulativeMeStaked rest
  end.

Record Chart : Type := mkChart {
  allDays : list Z;
  dailyData : list DayDelta;
  cumulativeData : list CumulativePoint
}.

(** Steps 1 to 4 of the component body: [now] is [new Date()], the instant
    of the render. *)
Definition aggregate (tzOffset now : Z) (stakers : list Staker) : JS.completion Chart :=
  let agg := dailyAggregation tzOffset stakers in
  let todayStr := format tzOffset now in
  let keys := daysFromData agg in
  match keys with
  | [] => JS.Thrown (JS.Error "No staker data available to determine date range.")
  | k :: _ =>
      let earliestDayStr := hd k (merge_sort Z.le keys) in
      let days := allDaysLoop tzOffset (dateOfDayKey earliestDayStr) todayStr [] in
      let daily := dailyDataOf agg days in
      JS.Returned (mkChart days daily (cumulate 0 0 daily))
  end.

End App.

(** ** What a fetch can come back with *)

Module Fetch.

(** [await response.json()]: it rejects, or yields the parsed body, of
    which the code only reads [result?.result?.data?.json]: [None] when a
    link of that path is missing or the value is falsy. *)
Inductive body (P : Type) : Type :=
| JsonRejects (e : JS.exn)
| JsonValue (json : option P).
Arguments JsonRejects {P} e.
Arguments JsonValue {P} json.

(** [await fetch(API_URL)]: it rejects (network error), or yields a
    response with its [ok] flag, its status and its body. *)
Inductive outcome (P : Type) : Type :=
| FetchRejects (e : JS.exn)
| Response (ok : bool) (status : Z) (b : body P).
Arguments FetchRejects {P} e.
Arguments Response {P} ok status b.

(** The payload as it arrives: the three fields the fetcher validates may
    be absent; the two it does not look at are taken as present. *)
Record ApiJson : Type := mkApiJson {
  json_ts : string;
  json_totalUIStaked : option Q;
  json_totalLockups : Z;
  json_totalUIStakingPower : option Q;
  json_stakers : option (list Staker)
}.

End Fetch.

(** ** App.tsx: state, [fetchData], the render gate *)

Module AppState.

Record t : Type := mk {
  data : option StakerSnapshot;
  error : option string;
  loading : bool;
  usingMockData : bool
}.

(** The four [useState] initial values. *)
Definition initial : t :=
  {| data := None; error := None; loading := true; usingMockData := false |}.

Definition setData (d : StakerSnapshot) (st : t) : t :=
  {| data := Some d; error := error st; loading := loading st;
     usingMockData := usingMockData st |}.
Definition setError (e : option string) (st : t) : t :=
  {| data := data st; error := e; loading := loading st;
     usingMockData := usingMockData st |}.
Definition setLoading (b : bool) (st : t) : t :=
  {| data := data st; error := error st; loading := b;
     usingMockData := usingMockData st |}.
Definition setUsingMockData (b : bool) (st : t) : t :=
  {| data := data st; error := error st; loading := loading st;
     usingMockData := b |}.

(** [error || !data], and the message shown then:
    [error || 'Failed to load staker data']. *)
Definition errorTruthy (st : t) : bool :=
  match error st with
  | Some m => JS.truthyStr m
  | None => false
  end.

Definition errorOr (st : t) (fallback : string) : string :=
  match error st with
  | Some m => if JS.truthyStr m then m else fallback
  | None => fallback
  end.

End AppState.

Module FetchData.

Import Fetch AppState.

(** [!stakerData.totalUIStakingPower]: absent or zero. *)
Definition falsyField (f : option Q) : bool :=
  match f with
  | Some q => negb (JS.truthyQ q)
  | None => true
  end.

(** The [try] block from [fetch] on: the snapshot handed to [setData], or
    what was thrown. *)
Definition tryBlock (o : outcome ApiJson) : JS.completion StakerSnapshot :=
  match o with
  | FetchRejects e => JS.Thrown e
  | Response ok status b =>
      if negb ok
      then JS.Thrown (JS.Error ("HTTP error! status: " +:+ pretty status))
      else
        match b with
        | JsonRejects e => JS.Thrown e
        | JsonValue None =>
            JS.Thrown (JS.Error "Invalid data structure received from API")
        | JsonValue (Some stakerData) =>
            match json_stakers stakerData with
            | None => JS.Thrown (JS.Error "Missing required fields in API response")
            | Some stakers =>
                if falsyField (json_totalUIStakingPower stakerData)
                   || falsyField (json_totalUIStaked stakerData)
                then JS.Thrown (JS.Error "Missing required fields in API response")
                else
                  JS.Returned
                    {| ts := json_ts stakerData;
                       totalUIStaked := default 0%Q (json_totalUIStaked stakerData);
                       totalLockups := json_totalLockups stakerData;
                       totalUIStakingPower :=
                         default 0%Q (json_totalUIStakingPower stakerData);
                       stakers := stakers |}
            end
        end
  end.

(** [err instanceof Error ? err.message : 'Failed to fetch data'] *)
Definition messageOf (err : JS.exn) : string :=
  match err with
  | JS.Error m => m
  | JS.NotAnError => "Failed to fetch data"
  end.

(** [fetchData] of the delta-accounting [App]: try, catch, finally. *)
Definition fetchData (o : outcome ApiJson) (st : t) : t :=
  let st := setUsingMockData false (setError None (setLoading true st)) in
  let st :=
    match tryBlock o with
    | JS.Returned stakerData => setData stakerData st
    | JS.Thrown err =>
        setUsingMockData true (setData mockData (setError (Some (messageOf err)) st))
    end in
  setLoading false st.

End FetchData.

Module Render.

Import AppState.

(** What [App] returns. *)
Inductive view : Type :=
| LoadingState
| ErrorMessage (message : string)
| Dashboard (sampleNotice : bool) (snapshot : StakerSnapshot) (avgDuration : Q)
            (cumulativeData : list App.CumulativePoint)
            (thresholds : Utils.Thresholds).

(** [data.stakers.reduce((acc, s) => acc + s.duration, 0) / data.stakers.length] *)
Definition avgDuration (stakers : list Staker) : Q :=
  (inject_Z (fold_left (fun acc s => acc + duration s)%Z stakers 0%Z)
   / inject_Z (Z.of_nat (length stakers)))%Q.

(** The body of [App] after the hooks: the two gates, then the chart
    pipeline, whose [throw] leaves the function. *)
Definition App (tzOffset now : Z) (st : t) : JS.completion view :=
  if loading st then JS.Returned LoadingState
  else
    match errorTruthy st, data st with
    | true, _ | false, None =>
        JS.Returned (ErrorMessage (errorOr st "Failed to load staker data"))
    | false, Some data =>
        match App.aggregate tzOffset now (stakers data) with
        | JS.Thrown e => JS.Thrown e
        | JS.Returned chart =>
            JS.Returned
              (Dashboard (usingMockData st) data (avgDuration (stakers data))
                         (App.cumulativeData chart)
                         (Utils.getPercentileThresholds (stakers data)))
        end
    end.

(** [ErrorBoundary.tsx] around [<App />], as [index.tsx] mounts it. *)
Inductive screen : Type :=
| Children (v : view)
| SomethingWentWrong (message : option string).

Definition ErrorBoundary (child : JS.completion view) : screen :=
  match child with
  | JS.Thrown (JS.Error m) => SomethingWentWrong (Some m)
  | JS.Thrown JS.NotAnError => SomethingWentWrong None
  | JS.Returned v => Children v
  end.

Definition root (tzOffset now : Z) (st : t) : screen :=
  ErrorBoundary (App tzOffset now st).

End Render.

(** ** The earlier [App] (monthly chart): its [fetchData] and gates

    It reads the payload without validating fields and, on failure, stores
    the sample snapshot without setting [error]. *)

Module AppMonthly.

Import Fetch AppState.

Definition tryBlock (o : outcome StakerSnapshot) : JS.completion StakerSnapshot :=
  match o with
  | FetchRejects e => JS.Thrown e
  | Response ok status b =>
      if negb ok
      then JS.Thrown (JS.Error ("HTTP error! status: " +:+ pretty status))
      else
        match b with
        | JsonRejects e => JS.Thrown e
        | JsonValue (Some json) => JS.Returned json
        | JsonValue None => JS.Thrown (JS.Error "Invalid data structure")
        end
  end.

Definition fetchData (o : outcome StakerSnapshot) (st : t) : t :=
  let st := setUsingMockData false (setError None (setLoading true st)) in
  let st :=
    match tryBlock o with
    | JS.Returned json => setData json st
    | JS.Thrown _ => setUsingMockData true (setData mockData st)
    end in
  setLoading false st.

(** Which of the three returns of the component is taken, with what the
    dashboard is given. *)
Inductive gate : Type :=
| GateLoading
| GateError (message : string)
| GateDashboard (sampleNotice : bool) (snapshot : StakerSnapshot).

Definition gates (st : t) : gate :=
  if loading st then GateLoading
  else
    match errorTruthy st, data st with
    | true, _ | false, None => GateError (errorOr st "Failed to load staker data")
    | false, Some data => GateDashboard (usingMockData st) data
    end.

End AppMonthly.

(** ** The calendar behind ['yyyy-MM'] *)

Module Calendar.

Local Open Scope Z_scope.

(** Year and month (1 to 12) of a day counted from 1970-01-01, in the
    proleptic Gregorian calendar: the count is shifted to start on 1 March
    of year 0, cut into 400-year eras of 146097 days, and the year and the
    month are read off within the era. *)
Definition yearMonth (dayNumber : Z) : Z * Z :=
  let z := dayNumber + 719468 in
  let era := z / 146097 in
  let doe := z - era * 146097 in
  let yoe := (doe - doe / 1460 + doe / 36524 - doe / 146096) / 365 in
  let doy := doe - (365 * yoe + yoe / 4 - yoe / 100) in
  let mp := (5 * doy + 2) / 153 in
  let m := if mp <? 10 then mp + 3 else mp - 9 in
  let y := yoe + era * 400 + (if m <=? 2 then 1 else 0) in
  (y, m).

(** [format(date, 'yyyy-MM')] in local time, as the number [12 * yyyy +
    (MM - 1)]: for four-digit years the order of these numbers is the order
    of the strings. *)
Definition formatMonth (tzOffset : Z) (date : Z) : Z :=
  let '(y, m) := yearMonth (DateFns.format tzOffset date) in
  12 * y + (m - 1).

End Calendar.

(** ** The earlier [App]: staking power per month of opening *)

Module MonthlyChart.

Import DateFns.

Record ChartPoint : Type := mkChartPoint {
  timestamp : Z;
  power : Q
}.

(** The callback of the reduce: [acc[month] = (acc[month] || 0) +
    staker.uiStakingPower].  [monthOf] is [format(_, 'yyyy-MM')]. *)
Definition addPower (monthOf : Z -> Z) (acc : gmap Z Q) (staker : Staker) : gmap Z Q :=
  let month := monthOf (dateOfSeconds (startTs staker)) in
  let before :=
    match acc !! month with
    | Some v => JS.orZero v
    | None => 0%Q
    end in
  <[month := (before + uiStakingPower staker)%Q]> acc.

Definition powerGrowthData (monthOf : Z -> Z) (stakers : list Staker) : gmap Z Q :=
  fold_left (addPower monthOf) stakers ∅.

(** [([a], [b]) => a.localeCompare(b)]: entries in the order of their keys. *)
Definition byKey (a b : Z * Q) : Prop := (a.1 <= b.1)%Z.

#[global] Instance byKey_dec : RelDecision byKey.
Proof. intros a b. unfold byKey. apply _. Defined.

(** [Object.entries(powerGrowthData).sort(...).map(([timestamp, power]) =>
    ({ timestamp, power }))] *)
Definition chartData (monthOf : Z -> Z) (stakers : list Staker) : list ChartPoint :=
  (fun e => mkChartPoint e.1 e.2)
    <$> merge_sort byKey (map_to_list (powerGrowthData monthOf stakers)).

End MonthlyChart.

(** ** The second [App]: cumulative totals over the days of opening *)

Module DailyChart.

Import DateFns.

Record DayTotal : Type := mkDayTotal {
  day : Z;
  totalStakingPower : Q;
  totalMeStaked : Q
}.

(** The callback of the reduce: create the entry of the day when it is
    missing, then add the record's staking power and amount to it. *)
Definition addStaker (tzOffset : Z) (acc : gmap Z DayTotal) (staker : Staker)
    : gmap Z DayTotal :=
  let day := format tzOffset (dateOfSeconds (startTs staker)) in
  let acc :=
    match acc !! day with
    | Some _ => acc
    | None => <[day := mkDayTotal day 0 0]> acc
    end in
  let acc :=
    alter (fun e => mkDayTotal (DailyChart.day e)
                      (totalStakingPower e + uiStakingPower staker)%Q
                      (totalMeStaked e)) day acc in
  alter (fun e => mkDayTotal (DailyChart.day e)
                    (totalStakingPower e)
                    (totalMeStaked e + uiAmount staker)%Q) day acc.

Definition dailyAggregation (tzOffset : Z) (stakers : list Staker) : gmap Z DayTotal :=
  fold_left (addStaker tzOffset) stakers ∅.

(** [(a, b) => a.day.localeCompare(b.day)] *)
Definition byDay (a b : DayTotal) : Prop := (day a <= day b)%Z.

#[global] Instance byDay_dec : RelDecision byDay.
Proof. intros a b. unfold byDay. apply _. Defined.

(** [Object.values(dailyAggregation).sort(...)] *)
Definition dailyData (tzOffset : Z) (stakers : list Staker) : list DayTotal :=
  merge_sort byDay (map_to_list (dailyAggregation tzOffset stakers)).*2.

(** [dailyData.map] with the two running totals it updates. *)
Fixpoint cumulate (cumulativeStakingPower cumulativeMeStaked : Q)
    (dailyData : list DayTotal) : list DayTotal :=
  match dailyData with
  | [] => []
  | item :: rest =>
      let cumulativeStakingPower := (cumulativeStakingPower + totalStakingPower item)%Q in
      let cumulativeMeStaked := (cumulativeMeStaked + totalMeStaked item)%Q in
      mkDayTotal (day item) cumulativeStakingPower cumulativeMeStaked
        :: cumulate cumulativeStakingPower cumulativeMeStaked rest
  end.

Definition cumulativeData (tzOffset : Z) (stakers : list Staker) : list DayTotal :=
  cumulate 0 0 (dailyData tzOffset stakers).

End DailyChart.

(** ** ErrorBoundary.tsx as the class it is *)

Module Boundary.

Record State : Type := mkState {
  hasError : bool;
  error : option JS.exn
}.

(** [state: State = { hasError: false }] *)
Definition initial : State := {| hasError := false; error := None |}.

Definition getDerivedStateFromError (e : JS.exn) : State :=
  {| hasError := true; error := Some e |}.

(** [this.state.error?.message] *)
Definition shownMessage (st : State) : option string :=
  match error st with
  | Some (JS.Error m) => Some m
  | _ => None
  end.

(** [render()]: the failure panel once [hasError] is set, else the
    children. *)
Definition render (st : State) (children : Render.view) : Render.screen :=
  if hasError st then Render.SomethingWentWrong (shownMessage st)
  else Render.Children children.

(** One pass of React over the boundary: with [hasError] set the children
    are not rendered at all; otherwise they are, and when that throws the
    state becomes [getDerivedStateFromError] of what was thrown and the
    boundary renders again. *)
Definition pass (st : State) (child : JS.completion Render.view) : State * Render.screen :=
  if hasError st then (st, Render.SomethingWentWrong (shownMessage st))
  else
    match child with
    | JS.Returned v => (st, render st v)
    | JS.Thrown e =>
        let st' := getDerivedStateFromError e in
        (st', Render.SomethingWentWrong (shownMessage st'))
    end.

(** A sequence of passes, with the screens they leave. *)
Fixpoint passes (st : State) (children : list (JS.completion Render.view))
    : State * list Render.screen :=
  match children with
  | [] => (st, [])
  | child :: rest =>
      let '(st1, screen) := pass st child in
      let '(st2, screens) := passes st1 rest in
      (st2, screen :: screens)
  end.

End Boundary.

(** * Part II: notions used to state the properties *)

Module Curve.

Local Open Scope Q_scope.

(** The piecewise reference definition, following the words of the
    specification: zero when expired or degenerate; otherwise [amount] up
    to the minimum duration, [maxPower] from the saturation duration on,
    and the linear interpolation in between. *)
Definition computeVotingPower_ref
    (amount startTs endTs minDuration maxSaturationDuration
     targetVotingPct now : Q) : Q :=
  if JS.gt now endTs || JS.le endTs startTs then 0
  else
    let duration := endTs - startTs in
    let maxPower := amount * targetVotingPct / 100 in
    if JS.le duration minDuration then amount
    else if JS.ge duration maxSaturationDuration then maxPower
    else amount + (maxPower - amount) * (duration - minDuration)
                  / (maxSaturationDuration - minDuration).

(** The value of a live, non-degenerate lockup as a function of its
    duration alone. *)
Definition curve (amount minDuration maxSaturation pct d : Q) : Q :=
  if JS.le d minDuration then amount
  else if JS.ge d maxSaturation then (amount * pct) / 100
  else amount + (((amount * pct) / 100 - amount) * (d - minDuration))
                / (maxSaturation - minDuration).

End Curve.

Module Ranking.

(** Larger staking power first. *)
Definition byPowerDesc (a b : Staker) : Prop :=
  (uiStakingPower b <= uiStakingPower a)%Q.

(** [arr[i].uiStakingPower], 0 when there is no such element. *)
Definition powerAt (arr : list Staker) (i : nat) : Q :=
  match arr !! i with
  | Some s => uiStakingPower s
  | None => 0%Q
  end.

End Ranking.

Module Events.

Import DateFns.

(** The day bucket a record opens on. *)
Definition startDay (tzOffset : Z) (s : Staker) : Z :=
  format tzOffset (dateOfSeconds (startTs s)).

(** The day bucket a record closes on, when it has an end. *)
Definition endDay (tzOffset : Z) (s : Staker) : option Z :=
  if JS.truthyZ (endTs s)
  then Some (format tzOffset (dateOfSeconds (endTs s)))
  else None.

(** Every bucket the records touch. *)
Definition eventDays (tzOffset : Z) (stakers : list Staker) : list Z :=
  flat_map (fun s => startDay tzOffset s :: option_list (endDay tzOffset s)) stakers.

Definition opensOn (tzOffset k : Z) (s : Staker) : bool :=
  bool_decide (startDay tzOffset s = k).

Definition closesOn (tzOffset k : Z) (s : Staker) : bool :=
  bool_decide (endDay tzOffset s = Some k).

(** Sum of a quantity over a list of records. *)
Definition total (f : Staker -> Q) (l : list Staker) : Q :=
  foldr (fun s acc => (f s + acc)%Q) 0%Q l.

(** Sum of a list of rationals. *)
Definition Qsum (l : list Q) : Q := foldr Qplus 0%Q l.

(** Sum of a quantity over the records that satisfy a test. *)
Definition sumWhere (c : Staker -> bool) (f : Staker -> Q) (l : list Staker) : Q :=
  total f (List.filter c l).

(** What the records add to and take from the bucket of day [k]. *)
Definition netOn (f : Staker -> Q) (tzOffset k : Z) (l : list Staker) : Q :=
  (sumWhere (opensOn tzOffset k) f l - sumWhere (closesOn tzOffset k) f l)%Q.

(** A record opens, or closes, on one of the listed days. *)
Definition opensIn (tzOffset : Z) (days : list Z) (s : Staker) : bool :=
  bool_decide (startDay tzOffset s ∈ days).

Definition closesIn (tzOffset : Z) (days : list Z) (s : Staker) : bool :=
  match endDay tzOffset s with
  | Some e => bool_decide (e ∈ days)
  | None => false
  end.

(** A lockup is active as of day [today]: it has opened, and it has no end
    or closes on a later day. *)
Definition activeOn (tzOffset today : Z) (s : Staker) : bool :=
  bool_decide (startDay tzOffset s <= today)%Z
  && match endDay tzOffset s with
     | Some e => bool_decide (today < e)%Z
     | None => true
     end.

(** The record does not close on a day before the one it opens on. *)
Definition closesAfterOpening (tzOffset : Z) (s : Staker) : Prop :=
  match endDay tzOffset s with
  | Some e => (startDay tzOffset s <= e)%Z
  | None => True
  end.

(** A record is degenerate when [endTs <= startTs]. *)
Definition nonDegenerate (s : Staker) : bool := bool_decide (startTs s < endTs s)%Z.

(** The days of a chart, none when the pipeline threw. *)
Definition chartDays (c : JS.completion App.Chart) : list Z :=
  match c with
  | JS.Returned chart => App.allDays chart
  | JS.Thrown _ => []
  end.

(** The emitted series, empty when the pipeline threw. *)
Definition seriesOf (c : JS.completion App.Chart) : list App.CumulativePoint :=
  match c with
  | JS.Returned chart => App.cumulativeData chart
  | JS.Thrown _ => []
  end.

End Events.

Module Buckets.

Import App.

(** Every stored entry carries its own key in its [day] field. *)
Definition keyed (acc : gmap Z DayDelta) : Prop :=
  forall k d, acc !! k = Some d -> day d = k.

(** The two quantities an entry carries, read through one projection. *)
Definition reads (g : DayDelta -> Q) (f : Staker -> Q) : Prop :=
  (g = deltaStakingPower /\ f = uiStakingPower) \/
  (g = deltaMeStaked /\ f = uiAmount).

End Buckets.

Module Failure.

Import Fetch.

(** The fetch outcomes that count as failures: the request rejects, the
    status is not a success, the body does not parse, the nested payload is
    not there, or one of the three required fields is absent. *)
Inductive failure : outcome ApiJson -> Prop :=
| network e : failure (FetchRejects e)
| status_not_ok status b : failure (Response false status b)
| body_rejects status e : failure (Response true status (JsonRejects e))
| no_payload status : failure (Response true status (JsonValue None))
| missing_field status json :
    json_stakers json = None \/ json_totalUIStakingPower json = None
    \/ json_totalUIStaked json = None ->
    failure (Response true status (JsonValue (Some json))).

(** The same for the earlier component, which validates no field. *)
Inductive failureMonthly : outcome StakerSnapshot -> Prop :=
| m_network e : failureMonthly (FetchRejects e)
| m_status_not_ok status b : failureMonthly (Response false status b)
| m_body_rejects status e : failureMonthly (Response true status (JsonRejects e))
| m_no_payload status : failureMonthly (Response true status (JsonValue None)).

End Failure.

Module RankingMore.

(** How many records have a staking power strictly above [t]. *)
Definition countAbove (t : Q) (l : list Staker) : nat :=
  length (List.filter (fun s => JS.gt (uiStakingPower s) t) l).

End RankingMore.

Module ChartEq.

Import App.

(** Two entries, or two points, that agree up to equality of rationals. *)
Definition sameDelta (d d' : DayDelta) : Prop :=
  day d = day d'
  /\ (deltaStakingPower d == deltaStakingPower d')%Q
  /\ (deltaMeStaked d == deltaMeStaked d')%Q.

Definition samePoint (p p' : CumulativePoint) : Prop :=
  pointDay p = pointDay p'
  /\ (totalStakingPower p == totalStakingPower p')%Q
  /\ (totalMeStaked p == totalMeStaked p')%Q.

(** Two runs of the pipeline with the same outcome: the same error, or the
    same days with the same values. *)
Definition sameChart (c c' : JS.completion Chart) : Prop :=
  match c, c' with
  | JS.Thrown e, JS.Thrown e' => e = e'
  | JS.Returned ch, JS.Returned ch' =>
      allDays ch = allDays ch'
      /\ Forall2 sameDelta (dailyData ch) (dailyData ch')
      /\ Forall2 samePoint (cumulativeData ch) (cumulativeData ch')
  | _, _ => False
  end.

End ChartEq.

Module Bucketing.

Import Events.

(** Sum of a quantity over the records that fall in bucket [k]. *)
Definition bucketSum (b : Staker -> Z) (f : Staker -> Q) (k : Z) (l : list Staker) : Q :=
  sumWhere (fun s => bool_decide (b s = k)) f l.

(** The month bucket and the day bucket a record opens in. *)
Definition startMonth (monthOf : Z -> Z) (s : Staker) : Z :=
  monthOf (DateFns.dateOfSeconds (startTs s)).

(** [acc[k]], or 0 when the key is missing. *)
Definition valueOr (acc : gmap Z Q) (k : Z) : Q := default 0%Q (acc !! k).

End Bucketing.

Module DailyNotions.

Import DailyChart.

(** [acc[k]], or the entry the reduce would create for day [k]. *)
Definition entryOf (acc : gmap Z DayTotal) (k : Z) : DayTotal :=
  default (mkDayTotal k 0 0) (acc !! k).

(** Every stored entry carries its own key in its [day] field. *)
Definition keyedTotals (acc : gmap Z DayTotal) : Prop :=
  forall k e, acc !! k = Some e -> day e = k.

(** A record has opened by day [k]. *)
Definition openedBy (tzOffset k : Z) (s : Staker) : bool :=
  bool_decide (Events.startDay tzOffset s <= k)%Z.

End DailyNotions.

(** * Part III: properties *)

(** ** Reading the comparisons *)

Section Comparisons.

Local Open Scope Q_scope.

Lemma le_true (x y : Q) : JS.le x y = true <-> x <= y.
Proof. apply Qle_bool_iff. Qed.

Lemma le_false (x y : Q) : JS.le x y = false <-> y < x.
Proof.
  unfold JS.le. split; intros H.
  - apply Qnot_le_lt. intros Hle. apply Qle_bool_iff in Hle. congruence.
  - destruct (Qle_bool x y) eqn:E; [|reflexivity].
    apply Qle_bool_iff in E. exfalso. apply (Qlt_not_le _ _ H E).
Qed.

Lemma ge_true (x y : Q) : JS.ge x y = true <-> y <= x.
Proof. apply le_true. Qed.

Lemma ge_false (x y : Q) : JS.ge x y = false <-> x < y.
Proof. apply le_false. Qed.

Lemma gt_true (x y : Q) : JS.gt x y = true <-> y < x.
Proof. unfold JS.gt. rewrite negb_true_iff. apply le_false. Qed.

Lemma gt_false (x y : Q) : JS.gt x y = false <-> x <= y.
Proof. unfold JS.gt. rewrite negb_false_iff. apply le_true. Qed.

Lemma orZero_eq (x : Q) : JS.orZero x == x.
Proof.
  unfold JS.orZero. destruct (Qeq_bool x 0) eqn:E; [|reflexivity].
  apply Qeq_bool_iff in E. symmetry. exact E.
Qed.

End Comparisons.

(** Turns the boolean tests of a goal or hypothesis into order facts. *)
Ltac js_order :=
  repeat match goal with
  | H : JS.le _ _ = true |- _ => apply le_true in H
  | H : JS.le _ _ = false |- _ => apply le_false in H
  | H : JS.ge _ _ = true |- _ => apply ge_true in H
  | H : JS.ge _ _ = false |- _ => apply ge_false in H
  | H : JS.gt _ _ = true |- _ => apply gt_true in H
  | H : JS.gt _ _ = false |- _ => apply gt_false in H
  end.

(** ** The voting-power curve *)

Section VotingPower.

Local Open Scope Q_scope.
Import Utils.

Variables amount lockupStartTs lockupEndTs minDuration maxSaturation pct now : Q.

Local Abbreviation power :=
  (calcVotingPower amount lockupStartTs lockupEndTs minDuration maxSaturation pct now).

Lemma calc_expired : lockupEndTs < now -> power = 0.
Proof.
  intros H. unfold calcVotingPower.
  apply gt_true in H. rewrite H. reflexivity.
Qed.

Lemma calc_degenerate : lockupEndTs <= lockupStartTs -> power = 0.
Proof.
  intros H. unfold calcVotingPower.
  apply le_true in H. rewrite H. destruct (JS.gt now lockupEndTs); reflexivity.
Qed.

Lemma calc_live_below :
  now <= lockupEndTs -> lockupStartTs < lockupEndTs -> lockupEndTs - lockupStartTs <= minDuration ->
  power = amount.
Proof.
  intros H1 H2 H3. unfold calcVotingPower.
  apply gt_false in H1. apply le_false in H2. apply le_true in H3.
  rewrite H1, H2. cbv zeta. rewrite H3. reflexivity.
Qed.

Lemma calc_live_saturated :
  now <= lockupEndTs -> lockupStartTs < lockupEndTs -> minDuration < lockupEndTs - lockupStartTs ->
  maxSaturation <= lockupEndTs - lockupStartTs ->
  power = (amount * pct) / 100.
Proof.
  intros H1 H2 H3 H4. unfold calcVotingPower.
  apply gt_false in H1. apply le_false in H2. apply le_false in H3.
  apply ge_true in H4.
  rewrite H1, H2. cbv zeta. rewrite H3, H4. reflexivity.
Qed.

Lemma calc_live_between :
  now <= lockupEndTs -> lockupStartTs < lockupEndTs -> minDuration < lockupEndTs - lockupStartTs ->
  lockupEndTs - lockupStartTs < maxSaturation ->
  power = amount + (((amount * pct) / 100 - amount) * (lockupEndTs - lockupStartTs - minDuration))
                   / (maxSaturation - minDuration).
Proof.
  intros H1 H2 H3 H4. unfold calcVotingPower.
  assert (H5 : 0 < maxSaturation - minDuration) by lra.
  apply gt_false in H1. apply le_false in H2. apply le_false in H3.
  apply ge_false in H4. apply le_false in H5.
  rewrite H1, H2. cbv zeta. rewrite H3, H4, H5. reflexivity.
Qed.

(** The guard on the range sits behind the two duration tests and is never
    taken: whenever it is reached the range is positive. *)
Lemma calc_range_guard_dead :
  JS.le (lockupEndTs - lockupStartTs) minDuration = false ->
  JS.ge (lockupEndTs - lockupStartTs) maxSaturation = false ->
  JS.le (maxSaturation - minDuration) 0 = false.
Proof.
  intros H1 H2. js_order. apply le_false. lra.
Qed.

End VotingPower.

Section Interpolation.

Local Open Scope Q_scope.

(** [a + k * x / r], the interpolated value at distance [x] into a range of
    width [r] with total gain [k]. *)

Lemma interp_mono (a k r x y : Q) :
  0 < r -> 0 <= k -> x <= y -> a + k * x / r <= a + k * y / r.
Proof.
  intros Hr Hk Hxy.
  apply Qplus_le_r. unfold Qdiv.
  apply Qmult_le_compat_r.
  - rewrite !(Qmult_comm k). apply Qmult_le_compat_r; assumption.
  - apply Qlt_le_weak, Qinv_lt_0_compat, Hr.
Qed.

Lemma interp_anti (a k r x y : Q) :
  0 < r -> k <= 0 -> x <= y -> a + k * y / r <= a + k * x / r.
Proof.
  intros Hr Hk Hxy.
  assert (H : a + - (-k * y / r) <= a + - (-k * x / r)).
  { apply Qplus_le_r, Qopp_le_compat.
    pose proof (interp_mono 0 (-k) r x y Hr ltac:(lra) Hxy) as M.
    rewrite !Qplus_0_l in M. exact M. }
  assert (E : forall z, a + - (- k * z / r) == a + k * z / r).
  { intros z. field. lra. }
  rewrite !E in H. exact H.
Qed.

Lemma interp_at_0 (a k r : Q) : 0 < r -> a + k * 0 / r == a.
Proof. intros Hr. field. lra. Qed.

Lemma interp_at_full (a k r : Q) : 0 < r -> a + k * r / r == a + k.
Proof. intros Hr. field. lra. Qed.

End Interpolation.

Section CurveFacts.

Local Open Scope Q_scope.
Import Utils Curve.


Lemma calc_live amount lockupStartTs lockupEndTs minDuration maxSaturation pct now :
  now <= lockupEndTs -> lockupStartTs < lockupEndTs ->
  calcVotingPower amount lockupStartTs lockupEndTs minDuration maxSaturation pct now
  = curve amount minDuration maxSaturation pct (lockupEndTs - lockupStartTs).
Proof.
  intros H1 H2. unfold calcVotingPower, curve.
  apply gt_false in H1. apply le_false in H2. rewrite H1, H2. cbv zeta.
  destruct (JS.le (lockupEndTs - lockupStartTs) minDuration) eqn:E1; [reflexivity|].
  destruct (JS.ge (lockupEndTs - lockupStartTs) maxSaturation) eqn:E2; [reflexivity|].
  rewrite (calc_range_guard_dead _ _ _ _ E1 E2). reflexivity.
Qed.

Lemma curve_below a mn mx pct d : d <= mn -> curve a mn mx pct d = a.
Proof. intros H. unfold curve. apply le_true in H. rewrite H. reflexivity. Qed.

Lemma curve_saturated a mn mx pct d :
  mn < d -> mx <= d -> curve a mn mx pct d = (a * pct) / 100.
Proof.
  intros H1 H2. unfold curve. apply le_false in H1. apply ge_true in H2.
  rewrite H1, H2. reflexivity.
Qed.

Lemma curve_between a mn mx pct d :
  mn < d -> d < mx ->
  curve a mn mx pct d
  = a + (((a * pct) / 100 - a) * (d - mn)) / (mx - mn).
Proof.
  intros H1 H2. unfold curve. apply le_false in H1. apply ge_false in H2.
  rewrite H1, H2. reflexivity.
Qed.

(** The three regions of the curve. *)
Lemma curve_cases a mn mx pct d :
  (d <= mn /\ curve a mn mx pct d = a) \/
  (mn < d /\ mx <= d /\ curve a mn mx pct d = (a * pct) / 100) \/
  (mn < d /\ d < mx /\
   curve a mn mx pct d = a + (((a * pct) / 100 - a) * (d - mn)) / (mx - mn)).
Proof.
  destruct (Qlt_le_dec mn d) as [H1|H1].
  - destruct (Qlt_le_dec d mx) as [H2|H2].
    + right; right. auto using curve_between.
    + right; left. auto using curve_saturated.
  - left. auto using curve_below.
Qed.

Lemma curve_nondecreasing a mn mx pct d1 d2 :
  mn < mx -> a <= (a * pct) / 100 -> d1 <= d2 ->
  curve a mn mx pct d1 <= curve a mn mx pct d2.
Proof.
  intros Hr Hk Hd.
  assert (Hr' : 0 < mx - mn) by lra.
  assert (Hk' : 0 <= (a * pct) / 100 - a) by lra.
  pose proof (interp_at_0 a ((a * pct) / 100 - a) (mx - mn) Hr') as E0.
  pose proof (interp_at_full a ((a * pct) / 100 - a) (mx - mn) Hr') as E1.
  destruct (curve_cases a mn mx pct d1) as [[A1 ->]|[(A1 & B1 & ->)|(A1 & B1 & ->)]];
  destruct (curve_cases a mn mx pct d2) as [[A2 ->]|[(A2 & B2 & ->)|(A2 & B2 & ->)]];
  try lra.
  - pose proof (interp_mono a _ (mx - mn) 0 (d2 - mn) Hr' Hk' ltac:(lra)). lra.
  - pose proof (interp_mono a _ (mx - mn) (d1 - mn) (mx - mn) Hr' Hk' ltac:(lra)). lra.
  - apply interp_mono; lra.
Qed.

Lemma curve_nonincreasing a mn mx pct d1 d2 :
  mn < mx -> (a * pct) / 100 <= a -> d1 <= d2 ->
  curve a mn mx pct d2 <= curve a mn mx pct d1.
Proof.
  intros Hr Hk Hd.
  assert (Hr' : 0 < mx - mn) by lra.
  assert (Hk' : (a * pct) / 100 - a <= 0) by lra.
  pose proof (interp_at_0 a ((a * pct) / 100 - a) (mx - mn) Hr') as E0.
  pose proof (interp_at_full a ((a * pct) / 100 - a) (mx - mn) Hr') as E1.
  destruct (curve_cases a mn mx pct d1) as [[A1 ->]|[(A1 & B1 & ->)|(A1 & B1 & ->)]];
  destruct (curve_cases a mn mx pct d2) as [[A2 ->]|[(A2 & B2 & ->)|(A2 & B2 & ->)]];
  try lra.
  - pose proof (interp_anti a _ (mx - mn) 0 (d2 - mn) Hr' Hk' ltac:(lra)). lra.
  - pose proof (interp_anti a _ (mx - mn) (d1 - mn) (mx - mn) Hr' Hk' ltac:(lra)). lra.
  - apply interp_anti; lra.
Qed.

(** The saturated value against the raw amount, by the sign of the bonus. *)
Lemma maxPower_ge a pct : 0 <= a -> 100 <= pct -> a <= (a * pct) / 100.
Proof.
  intros Ha Hp. apply Qle_shift_div_l; [reflexivity|].
  rewrite (Qmult_comm a pct), (Qmult_comm a 100).
  apply Qmult_le_compat_r; assumption.
Qed.

Lemma maxPower_le a pct : 0 <= a -> pct <= 100 -> (a * pct) / 100 <= a.
Proof.
  intros Ha Hp. apply Qle_shift_div_r; [reflexivity|].
  rewrite (Qmult_comm a pct), (Qmult_comm a 100).
  apply Qmult_le_compat_r; assumption.
Qed.

End CurveFacts.

Section VotingPowerClaims.

Local Open Scope Q_scope.
Import Utils Curve.

Lemma calc_eq_ref amount lockupStartTs lockupEndTs minDuration maxSaturation pct now :
  calcVotingPower amount lockupStartTs lockupEndTs minDuration maxSaturation pct now
  = computeVotingPower_ref amount lockupStartTs lockupEndTs minDuration maxSaturation pct now.
Proof.
  unfold calcVotingPower, computeVotingPower_ref.
  destruct (JS.gt now lockupEndTs); [reflexivity|].
  destruct (JS.le lockupEndTs lockupStartTs); [reflexivity|]. cbn [orb]. cbv zeta.
  destruct (JS.le (lockupEndTs - lockupStartTs) minDuration) eqn:E1; [reflexivity|].
  destruct (JS.ge (lockupEndTs - lockupStartTs) maxSaturation) eqn:E2; [reflexivity|].
  rewrite (calc_range_guard_dead _ _ _ _ E1 E2). reflexivity.
Qed.

(** C1. [calcVotingPower] is the piecewise reference definition: on all
    inputs it returns what [computeVotingPower_ref] returns (0 when expired
    or degenerate, else [amount] up to the minimum duration, [maxPower]
    from the saturation duration on, the linear interpolation in between);
    and a lockup of 100 with a duration of 15768000 s, no minimum, a
    saturation of 31536000 s and a target of 400 percent, seen before its
    end, has power 250. *)
Theorem calcVotingPower_piecewise :
  (forall amount lockupStartTs lockupEndTs minDuration maxSaturation pct now,
     calcVotingPower amount lockupStartTs lockupEndTs minDuration maxSaturation pct now
     = computeVotingPower_ref amount lockupStartTs lockupEndTs minDuration maxSaturation pct now)
  /\
  (forall lockupStartTs lockupEndTs now,
     lockupEndTs - lockupStartTs == 15768000 -> now < lockupEndTs ->
     calcVotingPower 100 lockupStartTs lockupEndTs 0 31536000 400 now == 250).
Proof.
  split; [exact calc_eq_ref|].
  intros lockupStartTs lockupEndTs now Hd Hnow.
  rewrite calc_live by lra.
  rewrite curve_between by lra.
  rewrite Hd. reflexivity.
Qed.

Lemma calcVotingPower_piecewise_witness :
  (15768000 - 0 == 15768000 /\ 0 < 15768000) /\
  calcVotingPower 100 0 15768000 0 31536000 400 0 == 250.
Proof.
  split; [split; reflexivity|].
  apply (proj2 calcVotingPower_piecewise 0 15768000 0); reflexivity.
Defined.

(** C2, as the code has it.  With a live, non-degenerate lockup and a
    saturation duration not above the minimum duration, the two duration
    tests decide alone: [calcVotingPower] returns [amount] when the
    duration is at most the minimum and [amount * pct / 100] otherwise;
    the zero of the range guard is never returned. *)
Theorem calcVotingPower_misconfigured
    amount lockupStartTs lockupEndTs minDuration maxSaturation pct now :
  now <= lockupEndTs -> lockupStartTs < lockupEndTs -> maxSaturation <= minDuration ->
  calcVotingPower amount lockupStartTs lockupEndTs minDuration maxSaturation pct now
  = if JS.le (lockupEndTs - lockupStartTs) minDuration then amount else (amount * pct) / 100.
Proof.
  intros H1 H2 H3. rewrite calc_live by assumption.
  destruct (JS.le (lockupEndTs - lockupStartTs) minDuration) eqn:E.
  - js_order. apply curve_below, E.
  - js_order. apply curve_saturated; lra.
Qed.

Lemma calcVotingPower_misconfigured_witness :
  (0 <= 10 /\ 0 < 10 /\ 5 <= 20) /\
  calcVotingPower 100 0 10 20 5 400 0 = 100.
Proof.
  split; [repeat split; discriminate|].
  apply (calcVotingPower_misconfigured 100 0 10 20 5 400 0);
    [discriminate | reflexivity | discriminate].
Defined.

(** C2 as stated fails: a lockup of 100 lasting 10 s, with minimum 20 s and
    saturation 5 s, is live and non-degenerate, the range is misconfigured,
    and the result is 100, not 0. *)
Lemma calcVotingPower_misconfigured_counterexample :
  ~ (0 <= 10 -> 0 < 10 -> 5 <= 20 ->
     calcVotingPower 100 0 10 20 5 400 0 == 0).
Proof.
  intros H. specialize (H ltac:(discriminate) ltac:(reflexivity) ltac:(discriminate)).
  vm_compute in H. discriminate H.
Qed.




End VotingPowerClaims.

Section Thresholds.

Local Open Scope Q_scope.
Import Utils Ranking.

Lemma byPowerDesc_trans : Transitive byPowerDesc.
Proof. intros a b c H1 H2. unfold byPowerDesc in *. lra. Qed.

Lemma insertDesc_perm x l : insertDesc x l ≡ₚ x :: l.
Proof.
  induction l as [|y l IH]; cbn; [reflexivity|].
  destruct (JS.ge _ _); [reflexivity|].
  rewrite IH. apply Permutation_swap.
Qed.

Lemma sortDesc_perm l : sortDesc l ≡ₚ l.
Proof.
  induction l as [|x l IH]; cbn; [reflexivity|].
  rewrite insertDesc_perm. f_equiv. exact IH.
Qed.

Lemma insertDesc_hd x y l :
  byPowerDesc y x -> HdRel byPowerDesc y l -> HdRel byPowerDesc y (insertDesc x l).
Proof.
  intros Hyx Hl. destruct l as [|z l]; cbn.
  - constructor. exact Hyx.
  - destruct (JS.ge _ _); constructor; [exact Hyx|].
    inversion Hl; assumption.
Qed.

Lemma insertDesc_sorted x l :
  Sorted byPowerDesc l -> Sorted byPowerDesc (insertDesc x l).
Proof.
  induction l as [|y l IH]; cbn; intros Hs.
  - repeat constructor.
  - destruct (JS.ge _ _) eqn:E.
    + constructor; [exact Hs|]. constructor. js_order. exact E.
    + inversion Hs as [|? ? Hs' Hhd]; subst.
      constructor; [auto|].
      apply insertDesc_hd; [|exact Hhd].
      js_order. unfold byPowerDesc. lra.
Qed.

Lemma sortDesc_sorted l : Sorted byPowerDesc (sortDesc l).
Proof.
  induction l as [|x l IH]; cbn; [constructor|].
  apply insertDesc_sorted, IH.
Qed.

(** Two descending arrangements of the same records carry the same powers
    position by position. *)
Lemma sorted_powers_unique (l1 l2 : list Staker) :
  l1 ≡ₚ l2 -> Sorted byPowerDesc l1 -> Sorted byPowerDesc l2 ->
  forall i, powerAt l1 i == powerAt l2 i.
Proof.
  intros Hp S1 S2 i.
  set (key := fun s : Staker => Qred (uiStakingPower s)).
  set (R := fun x y : Q => y <= x).
  assert (T : forall l, Sorted byPowerDesc l -> StronglySorted R (key <$> l)).
  { intros l Hs. apply Sorted_StronglySorted in Hs; [|apply byPowerDesc_trans].
    induction Hs as [|a l Hs IH Hall]; cbn; constructor; [exact IH|].
    apply Forall_fmap. eapply Forall_impl; [exact Hall|].
    intros b Hb. unfold R, key. cbn. rewrite !Qred_correct. exact Hb. }
  assert (E : key <$> l1 = key <$> l2).
  { apply (StronglySorted_unique_strong R); auto.
    - intros x1 x2 H1 H2 R12 R21.
      apply list_elem_of_fmap in H1 as (s1 & -> & _).
      apply list_elem_of_fmap in H2 as (s2 & -> & _).
      unfold key, R in *. apply Qred_complete.
      rewrite !Qred_correct in R12, R21. lra.
    - apply fmap_Permutation, Hp. }
  assert (Ei : (key <$> l1) !! i = (key <$> l2) !! i) by (rewrite E; reflexivity).
  rewrite !list_lookup_fmap in Ei. unfold powerAt.
  destruct (l1 !! i) as [s1|], (l2 !! i) as [s2|]; cbn in Ei; try discriminate.
  - injection Ei as Ei. unfold key in Ei. apply Qred_eq_iff, Ei.
  - reflexivity.
Qed.

Lemma powerAtOrZero_eq arr (i : Z) : powerAtOrZero arr i == powerAt arr (Z.to_nat i).
Proof.
  unfold powerAtOrZero, powerAt. destruct (arr !! Z.to_nat i); [|reflexivity].
  apply orZero_eq.
Qed.

(** [Math.floor(n * 0.01)] and [Math.floor(n * 0.1)] on the rationals. *)
Lemma floor_fraction (n : nat) (d : positive) :
  Z.to_nat (JS.floor (inject_Z (Z.of_nat n) * (1 # d))) = (n / Pos.to_nat d)%nat.
Proof.
  unfold JS.floor.
  replace (Qfloor (inject_Z (Z.of_nat n) * (1 # d))) with (Z.of_nat n / Z.pos d)%Z.
  - rewrite <- positive_nat_Z, <- Nat2Z.inj_div. apply Nat2Z.id.
  - rewrite Zdiv_Qdiv. apply Qfloor_comp.
    unfold Qdiv, Qinv, inject_Z. cbn. reflexivity.
Qed.

End Thresholds.

Section ThresholdClaims.

Local Open Scope Q_scope.
Import Utils Ranking.

Lemma thresholds_at_sortDesc stakers :
  top1 (getPercentileThresholds stakers)
    == powerAt (sortDesc stakers) (length stakers / 100)
  /\ top10 (getPercentileThresholds stakers)
    == powerAt (sortDesc stakers) (length stakers / 10).
Proof.
  unfold getPercentileThresholds. cbn [top1 top10].
  rewrite !powerAtOrZero_eq, !floor_fraction. split; reflexivity.
Qed.

(** C5. For a list of [n] records, [top1] and [top10] are the staking
    powers at indices [floor(n * 0.01)] and [floor(n * 0.1)] of the list
    sorted by descending staking power: of the sorted copy the function
    builds, which is a descending permutation of the input, and of any
    other descending permutation of it.  A threshold whose index is out of
    bounds is 0, as both are for the empty list; for two records [top1] is
    the larger of the two powers. *)
Theorem getPercentileThresholds_spec (stakers : list Staker) :
  let n := length stakers in
  let thresholds := getPercentileThresholds stakers in
  (sortDesc stakers ≡ₚ stakers /\ Sorted byPowerDesc (sortDesc stakers))
  /\ (forall sorted,
        sorted ≡ₚ stakers -> Sorted byPowerDesc sorted ->
        top1 thresholds == powerAt sorted (n / 100)
        /\ top10 thresholds == powerAt sorted (n / 10))
  /\ (forall sorted,
        sorted ≡ₚ stakers ->
        (sorted !! (n / 100)%nat = None -> top1 thresholds = 0)
        /\ (sorted !! (n / 10)%nat = None -> top10 thresholds = 0))
  /\ (n = 0%nat -> top1 thresholds = 0 /\ top10 thresholds = 0)
  /\ (forall a b, stakers = [a; b] ->
        top1 thresholds == Qmax (uiStakingPower a) (uiStakingPower b)).
Proof.
  intros n thresholds.
  pose proof (sortDesc_perm stakers) as Hperm.
  pose proof (sortDesc_sorted stakers) as Hsorted.
  pose proof (thresholds_at_sortDesc stakers) as [H1 H10].
  split; [split; assumption|].
  split; [|split; [|split]].
  - intros sorted Hp Hs. fold n thresholds in H1, H10.
    rewrite H1, H10.
    split; apply sorted_powers_unique; auto; rewrite Hperm; symmetry; exact Hp.
  - intros sorted Hp.
    assert (Hlen : length (sortDesc stakers) = length sorted)
      by (rewrite Hperm, Hp; reflexivity).
    unfold thresholds, getPercentileThresholds, powerAtOrZero. cbn [top1 top10].
    rewrite !floor_fraction. fold n. cbn [Pos.to_nat Pos.iter_op Nat.add].
    split; intros Hnone; apply lookup_ge_None in Hnone;
      rewrite <- Hlen in Hnone; apply lookup_ge_None in Hnone;
      change (Pos.to_nat 100) with 100%nat; change (Pos.to_nat 10) with 10%nat;
      rewrite Hnone; reflexivity.
  - intros Hn. apply length_zero_iff_nil in Hn. subst thresholds.
    rewrite Hn. split; reflexivity.
  - intros a b E. subst thresholds n. rewrite H1. subst stakers.
    change (length [a; b] / 100)%nat with 0%nat.
    unfold sortDesc, powerAt. cbn [foldr insertDesc].
    destruct (JS.ge (uiStakingPower a) (uiStakingPower b)) eqn:E;
      cbn [lookup list_lookup]; js_order.
    + symmetry. apply Q.max_l. exact E.
    + symmetry. apply Q.max_r. lra.
Qed.

Lemma getPercentileThresholds_spec_witness :
  let a := mkStaker "a" 3 1 0 10 10 in
  let b := mkStaker "b" 7 2 0 10 10 in
  [b; a] ≡ₚ [a; b] /\ top1 (getPercentileThresholds [a; b]) == 7.
Proof.
  intros a b.
  assert (Hp : [b; a] ≡ₚ [a; b]) by apply Permutation_swap.
  assert (Hs : Sorted byPowerDesc [b; a]).
  { repeat constructor. unfold byPowerDesc. cbn. discriminate. }
  split; [exact Hp|].
  exact (proj1 (proj1 (proj2 (getPercentileThresholds_spec [a; b])) [b; a] Hp Hs)).
Defined.

(** The bundled sample: the larger of its two powers is both thresholds. *)
Example mockData_thresholds :
  getPercentileThresholds (stakers mockData)
  = {| top1 := 2000001 # 100; top10 := 2000001 # 100 |}.
Proof. reflexivity. Qed.

End ThresholdClaims.

Section Aggregation.

Import DateFns App Events Buckets.
Local Open Scope Q_scope.

Variable tzOffset : Z.


Lemma entryOr_day acc k : keyed acc -> day (entryOr acc k) = k.
Proof.
  intros Hk. unfold entryOr. destruct (acc !! k) eqn:E; cbn; [|reflexivity].
  apply Hk, E.
Qed.

Lemma addStake_keyed acc k p a : keyed acc -> keyed (addStake acc k p a).
Proof.
  intros Hk j d. unfold addStake. rewrite lookup_insert.
  case_decide as E.
  - intros [= <-]. cbn. subst j. apply entryOr_day, Hk.
  - apply Hk.
Qed.

Lemma subStake_keyed acc k p a : keyed acc -> keyed (subStake acc k p a).
Proof.
  intros Hk j d. unfold subStake. rewrite lookup_insert.
  case_decide as E.
  - intros [= <-]. cbn. subst j. apply entryOr_day, Hk.
  - apply Hk.
Qed.

Lemma aggregateStaker_keyed acc s : keyed acc -> keyed (aggregateStaker tzOffset acc s).
Proof.
  intros Hk. unfold aggregateStaker.
  destruct (JS.truthyZ (endTs s)); auto using addStake_keyed, subStake_keyed.
Qed.

Lemma fold_keyed l acc : keyed acc -> keyed (fold_left (aggregateStaker tzOffset) l acc).
Proof.
  revert acc. induction l as [|s l IH]; intros acc Hk; cbn; [exact Hk|].
  apply IH, aggregateStaker_keyed, Hk.
Qed.

Lemma dailyAggregation_keyed l : keyed (dailyAggregation tzOffset l).
Proof. apply fold_keyed. intros k d. rewrite lookup_empty. discriminate. Qed.

(** *** Which buckets exist *)

Lemma addStake_is_Some acc k p a j :
  is_Some (addStake acc k p a !! j) <-> j = k \/ is_Some (acc !! j).
Proof.
  unfold addStake. rewrite lookup_insert. case_decide as E.
  - subst. split; [auto|]. intros _. eexists; reflexivity.
  - split; [auto|]. intros [->|H]; [congruence|exact H].
Qed.

Lemma subStake_is_Some acc k p a j :
  is_Some (subStake acc k p a !! j) <-> j = k \/ is_Some (acc !! j).
Proof.
  unfold subStake. rewrite lookup_insert. case_decide as E.
  - subst. split; [auto|]. intros _. eexists; reflexivity.
  - split; [auto|]. intros [->|H]; [congruence|exact H].
Qed.

Lemma aggregateStaker_is_Some acc s j :
  is_Some (aggregateStaker tzOffset acc s !! j)
  <-> j ∈ eventDays tzOffset [s] \/ is_Some (acc !! j).
Proof.
  unfold aggregateStaker, eventDays, endDay, startDay. cbn.
  destruct (JS.truthyZ (endTs s)); cbn.
  - rewrite subStake_is_Some, addStake_is_Some.
    rewrite !elem_of_cons, elem_of_nil. tauto.
  - rewrite addStake_is_Some. rewrite !elem_of_cons, elem_of_nil. tauto.
Qed.

Lemma eventDays_cons s l :
  eventDays tzOffset (s :: l) = eventDays tzOffset [s] ++ eventDays tzOffset l.
Proof. unfold eventDays. cbn. rewrite app_nil_r. reflexivity. Qed.

Lemma fold_is_Some l acc j :
  is_Some (fold_left (aggregateStaker tzOffset) l acc !! j)
  <-> j ∈ eventDays tzOffset l \/ is_Some (acc !! j).
Proof.
  revert acc. induction l as [|s l IH]; intros acc.
  - cbn. rewrite elem_of_nil. tauto.
  - cbn [fold_left]. rewrite IH, aggregateStaker_is_Some, (eventDays_cons s l), elem_of_app.
    tauto.
Qed.

Lemma dailyAggregation_is_Some l j :
  is_Some (dailyAggregation tzOffset l !! j) <-> j ∈ eventDays tzOffset l.
Proof.
  unfold dailyAggregation. rewrite fold_is_Some, lookup_empty.
  split; [intros [H|[? H]]; [exact H|discriminate]|auto].
Qed.

Lemma daysFromData_elem (m : gmap Z DayDelta) j :
  j ∈ daysFromData m <-> is_Some (m !! j).
Proof.
  unfold daysFromData. rewrite list_elem_of_fmap. split.
  - intros ([k d] & -> & H). apply elem_of_map_to_list in H. eexists; exact H.
  - intros [d H]. exists (j, d). split; [reflexivity|].
    apply elem_of_map_to_list, H.
Qed.

Lemma daysFromData_events l j :
  j ∈ daysFromData (dailyAggregation tzOffset l) <-> j ∈ eventDays tzOffset l.
Proof. rewrite daysFromData_elem. apply dailyAggregation_is_Some. Qed.

End Aggregation.

Section Deltas.

Import DateFns App Events Buckets.
Local Open Scope Q_scope.

Variable tzOffset : Z.

Lemma sumWhere_cons c f s l :
  sumWhere c f (s :: l) == (if c s then f s else 0) + sumWhere c f l.
Proof.
  unfold sumWhere. cbn [List.filter]. destruct (c s); unfold total; cbn [foldr]; lra.
Qed.

Lemma netOn_nil f k : netOn f tzOffset k [] == 0.
Proof. reflexivity. Qed.

Lemma netOn_cons f k s l :
  netOn f tzOffset k (s :: l)
  == (if opensOn tzOffset k s then f s else 0)
     - (if closesOn tzOffset k s then f s else 0)
     + netOn f tzOffset k l.
Proof. unfold netOn. rewrite !sumWhere_cons. lra. Qed.


Lemma addStake_delta g f acc k s j :
  reads g f ->
  g (entryOr (addStake acc k (uiStakingPower s) (uiAmount s)) j)
  == g (entryOr acc j) + (if bool_decide (k = j) then f s else 0).
Proof.
  intros Hr. unfold addStake, entryOr at 1. rewrite lookup_insert.
  case_bool_decide as E; case_decide as E'; try congruence.
  - subst j. destruct Hr as [[-> ->]|[-> ->]]; cbn; reflexivity.
  - fold (entryOr acc j). lra.
Qed.

Lemma subStake_delta g f acc k s j :
  reads g f ->
  g (entryOr (subStake acc k (uiStakingPower s) (uiAmount s)) j)
  == g (entryOr acc j) - (if bool_decide (k = j) then f s else 0).
Proof.
  intros Hr. unfold subStake, entryOr at 1. rewrite lookup_insert.
  case_bool_decide as E; case_decide as E'; try congruence.
  - subst j. destruct Hr as [[-> ->]|[-> ->]]; cbn; reflexivity.
  - fold (entryOr acc j). lra.
Qed.

Lemma aggregateStaker_delta g f acc s j :
  reads g f ->
  g (entryOr (aggregateStaker tzOffset acc s) j)
  == g (entryOr acc j)
     + (if opensOn tzOffset j s then f s else 0)
     - (if closesOn tzOffset j s then f s else 0).
Proof.
  intros Hr. unfold aggregateStaker, opensOn, closesOn, endDay, startDay.
  destruct (JS.truthyZ (endTs s)).
  - rewrite (subStake_delta g f), (addStake_delta g f) by assumption.
    repeat case_bool_decide; try congruence; lra.
  - rewrite (addStake_delta g f) by assumption.
    repeat case_bool_decide; try congruence; lra.
Qed.

Lemma fold_delta g f l acc j :
  reads g f ->
  g (entryOr (fold_left (aggregateStaker tzOffset) l acc) j)
  == g (entryOr acc j) + netOn f tzOffset j l.
Proof.
  intros Hr. revert acc. induction l as [|s l IH]; intros acc; cbn [fold_left].
  - rewrite netOn_nil. lra.
  - rewrite IH, (aggregateStaker_delta g f), netOn_cons by assumption. lra.
Qed.

(** The entry of day [j] after the reduce: what opened on [j] minus what
    closed on [j]. *)
Lemma dailyAggregation_delta g f l j :
  reads g f ->
  g (entryOr (dailyAggregation tzOffset l) j) == netOn f tzOffset j l.
Proof.
  intros Hr. unfold dailyAggregation. rewrite (fold_delta g f) by assumption.
  unfold entryOr. rewrite lookup_empty.
  destruct Hr as [[-> _]|[-> _]]; cbn; lra.
Qed.

End Deltas.

Section DayRange.

Import DateFns App Events Buckets.
Local Open Scope Z_scope.

(** *** [daysFromData.sort()[0]] is the smallest key *)

Lemma sorted_head_least (k0 : Z) (keys : list Z) :
  keys <> [] ->
  hd k0 (merge_sort Z.le keys) ∈ keys
  /\ forall k, k ∈ keys -> hd k0 (merge_sort Z.le keys) <= k.
Proof.
  intros Hne.
  pose proof (merge_sort_Permutation Z.le keys) as Hp.
  pose proof (StronglySorted_merge_sort Z.le keys) as Hs.
  destruct (merge_sort Z.le keys) as [|x rest].
  - apply Permutation_nil in Hp. contradiction.
  - cbn. split.
    + rewrite <- Hp. apply list_elem_of_here.
    + intros k Hk. rewrite <- Hp in Hk.
      apply elem_of_cons in Hk as [->|Hk]; [lia|].
      inversion Hs as [|? ? _ Hall]; subst.
      rewrite Forall_forall in Hall. apply Hall, Hk.
Qed.

(** *** The calendar side *)

Lemma format_nextDay tzOffset date :
  format tzOffset (nextDay date) = format tzOffset date + 1.
Proof.
  unfold nextDay, format, msPerDay.
  replace (date + 86400000 - tzOffset * 60000)
    with (date - tzOffset * 60000 + 1 * 86400000) by ring.
  apply Z.div_add. discriminate.
Qed.

(** A day key parsed as midnight UTC falls, in local time, on the same day
    at or east of Greenwich and on the day before west of it. *)
Lemma format_dateOfDayKey_east tzOffset k :
  -1440 < tzOffset <= 0 -> format tzOffset (dateOfDayKey k) = k.
Proof.
  intros H. unfold format, dateOfDayKey, msPerDay.
  symmetry. apply Z.div_unique with (r := - tzOffset * 60000); lia.
Qed.

Lemma format_dateOfDayKey_west tzOffset k :
  0 < tzOffset <= 1440 -> format tzOffset (dateOfDayKey k) = k - 1.
Proof.
  intros H. unfold format, dateOfDayKey, msPerDay.
  symmetry. apply Z.div_unique with (r := 86400000 - tzOffset * 60000); lia.
Qed.

Lemma format_dateOfDayKey_le tzOffset k :
  -1440 < tzOffset -> format tzOffset (dateOfDayKey k) <= k.
Proof.
  intros H. unfold format, dateOfDayKey, msPerDay.
  apply Z.lt_succ_r, Z.div_lt_upper_bound; lia.
Qed.

(** *** The loop, in closed form *)

Lemma allDaysLoop_seqZ tzOffset currentDate todayStr allDays :
  allDaysLoop tzOffset currentDate todayStr allDays
  = allDays ++ seqZ (format tzOffset currentDate)
                    (todayStr - format tzOffset currentDate + 1).
Proof.
  funelim (allDaysLoop tzOffset currentDate todayStr allDays).
  - rewrite H. rewrite format_nextDay, <- app_assoc. f_equal.
    rewrite (seqZ_cons (format tzOffset currentDate)) by lia. cbn.
    f_equal. f_equal; lia.
  - rewrite seqZ_nil by lia. rewrite app_nil_r. reflexivity.
Qed.

End DayRange.

Section Sums.

Import DateFns App Events Buckets.
Local Open Scope Q_scope.

Lemma Qsum_cons x l : Qsum (x :: l) = x + Qsum l.
Proof. reflexivity. Qed.

Lemma Qsum_nil : Qsum [] = 0.
Proof. reflexivity. Qed.

(** *** Running totals *)

Lemma cumulate_days a b l : pointDay <$> cumulate a b l = day <$> l.
Proof.
  revert a b. induction l as [|d l IH]; intros a b; cbn; [reflexivity|].
  f_equal. apply IH.
Qed.

Lemma cumulate_length a b l : length (cumulate a b l) = length l.
Proof.
  revert a b. induction l as [|d l IH]; intros a b; cbn; [reflexivity|].
  f_equal. apply IH.
Qed.

(** Each point carries the sum of the deltas up to and including its day. *)
Lemma cumulate_lookup a b l i pt :
  cumulate a b l !! i = Some pt ->
  totalStakingPower pt == a + Qsum (deltaStakingPower <$> take (S i) l)
  /\ totalMeStaked pt == b + Qsum (deltaMeStaked <$> take (S i) l).
Proof.
  revert a b i pt. induction l as [|d l IH]; intros a b i pt; cbn [cumulate].
  - rewrite lookup_nil. discriminate.
  - destruct i as [|i].
    + cbn [lookup list_lookup]. intros [= <-].
      cbn [firstn fmap list_fmap totalStakingPower totalMeStaked].
      rewrite take_0. cbn [fmap list_fmap]. rewrite !Qsum_cons, !Qsum_nil. split; lra.
    + cbn [lookup list_lookup]. intros H. apply IH in H as [H1 H2].
      rewrite H1, H2. cbn [firstn fmap list_fmap]. rewrite !Qsum_cons. split; lra.
Qed.

Lemma cumulate_last a b l pt :
  last (cumulate a b l) = Some pt ->
  totalStakingPower pt == a + Qsum (deltaStakingPower <$> l)
  /\ totalMeStaked pt == b + Qsum (deltaMeStaked <$> l).
Proof.
  rewrite last_lookup, cumulate_length. intros H.
  pose proof (lookup_lt_Some _ _ _ H) as Hlt. rewrite cumulate_length in Hlt.
  apply cumulate_lookup in H.
  rewrite firstn_all2 in H by lia. exact H.
Qed.

(** *** Summing a bucket's indicator over distinct days *)

Lemma Qsum_indicator (x : Z) (v : Q) (days : list Z) :
  NoDup days ->
  Qsum ((fun k => if bool_decide (x = k) then v else 0) <$> days)
  == if bool_decide (x ∈ days) then v else 0.
Proof.
  induction 1 as [|k days Hk Hnd IH]; cbn [fmap list_fmap].
  - rewrite bool_decide_eq_false_2 by apply not_elem_of_nil. reflexivity.
  - rewrite Qsum_cons, IH. repeat case_bool_decide; subst;
      rewrite ?elem_of_cons in *; try tauto; try lra.
    all: exfalso; tauto.
Qed.

Variable tzOffset : Z.

Lemma Qsum_opens f s days :
  NoDup days ->
  Qsum ((fun k => if opensOn tzOffset k s then f s else 0) <$> days)
  == if opensIn tzOffset days s then f s else 0.
Proof. intros Hnd. unfold opensOn, opensIn. apply Qsum_indicator, Hnd. Qed.

Lemma Qsum_closes f s days :
  NoDup days ->
  Qsum ((fun k => if closesOn tzOffset k s then f s else 0) <$> days)
  == if closesIn tzOffset days s then f s else 0.
Proof.
  intros Hnd. unfold closesOn, closesIn. destruct (endDay tzOffset s) as [e|].
  - rewrite <- (Qsum_indicator e (f s) days Hnd).
    induction days as [|k days IH]; cbn [fmap list_fmap]; [reflexivity|].
    apply NoDup_cons in Hnd as [_ Hnd]. rewrite !Qsum_cons, (IH Hnd).
    repeat case_bool_decide; try congruence; reflexivity.
  - induction days as [|k days IH]; cbn [fmap list_fmap]; [reflexivity|].
    apply NoDup_cons in Hnd as [_ Hnd]. rewrite Qsum_cons, (IH Hnd).
    rewrite bool_decide_eq_false_2 by discriminate. lra.
Qed.

(** Over distinct days, the buckets sum to what opened on those days minus
    what closed on them. *)
Lemma Qsum_netOn f l days :
  NoDup days ->
  Qsum ((fun k => netOn f tzOffset k l) <$> days)
  == sumWhere (opensIn tzOffset days) f l - sumWhere (closesIn tzOffset days) f l.
Proof.
  intros Hnd. induction l as [|s l IH].
  - unfold netOn, sumWhere. cbn [List.filter total foldr].
    induction days as [|k days IHd]; cbn [fmap list_fmap]; [reflexivity|].
    apply NoDup_cons in Hnd as [_ Hnd]. rewrite Qsum_cons, (IHd Hnd). reflexivity.
  - rewrite !sumWhere_cons, <- (Qsum_opens f s days Hnd), <- (Qsum_closes f s days Hnd).
    transitivity
      (Qsum ((fun k => if opensOn tzOffset k s then f s else 0) <$> days)
       - Qsum ((fun k => if closesOn tzOffset k s then f s else 0) <$> days)
       + Qsum ((fun k => netOn f tzOffset k l) <$> days)); [|rewrite IH; lra].
    clear IH Hnd. induction days as [|k days IHd]; cbn [fmap list_fmap];
      [rewrite !Qsum_nil; lra|].
    rewrite !Qsum_cons, IHd, (netOn_cons tzOffset f k s l). lra.
Qed.

Lemma Qsum_dailyData g f l days :
  reads g f -> NoDup days ->
  Qsum (g <$> dailyDataOf (dailyAggregation tzOffset l) days)
  == sumWhere (opensIn tzOffset days) f l - sumWhere (closesIn tzOffset days) f l.
Proof.
  intros Hr Hnd. rewrite <- (Qsum_netOn f l days Hnd).
  unfold dailyDataOf. clear Hnd.
  induction days as [|k days IH]; cbn [fmap list_fmap map]; [reflexivity|].
  rewrite !Qsum_cons, IH, (dailyAggregation_delta tzOffset g f) by assumption.
  reflexivity.
Qed.

Lemma dailyData_days l days :
  day <$> dailyDataOf (dailyAggregation tzOffset l) days = days.
Proof.
  unfold dailyDataOf. induction days as [|k days IH]; cbn; [reflexivity|].
  rewrite IH, entryOr_day by apply dailyAggregation_keyed. reflexivity.
Qed.

End Sums.

Section Aggregate.

Import DateFns App Events Buckets.

Variables tzOffset now : Z.

Lemma aggregate_nil :
  aggregate tzOffset now []
  = JS.Thrown (JS.Error "No staker data available to determine date range.").
Proof. reflexivity. Qed.

(** The chart of a non-empty list: the days run from the local day of the
    parsed earliest key through today, the earliest key being the least of
    all the buckets the records touch. *)
Lemma aggregate_returns stakers :
  stakers <> [] ->
  exists earliest,
    earliest ∈ eventDays tzOffset stakers
    /\ (forall k, k ∈ eventDays tzOffset stakers -> (earliest <= k)%Z)
    /\ let first := format tzOffset (dateOfDayKey earliest) in
       let days := seqZ first (format tzOffset now - first + 1) in
       let daily := dailyDataOf (dailyAggregation tzOffset stakers) days in
       aggregate tzOffset now stakers
       = JS.Returned (mkChart days daily (cumulate 0 0 daily)).
Proof.
  intros Hne. unfold aggregate.
  destruct (daysFromData (dailyAggregation tzOffset stakers)) as [|k keys] eqn:E.
  - exfalso. destruct stakers as [|s l]; [congruence|].
    assert (H : startDay tzOffset s ∈ daysFromData (dailyAggregation tzOffset (s :: l))).
    { apply daysFromData_events. unfold eventDays. cbn. apply list_elem_of_here. }
    rewrite E in H. apply elem_of_nil in H. exact H.
  - destruct (sorted_head_least k (k :: keys) ltac:(discriminate)) as [Hin Hleast].
    exists (hd k (merge_sort Z.le (k :: keys))).
    split; [|split].
    + apply daysFromData_events. rewrite E. exact Hin.
    + intros j Hj. apply Hleast. rewrite <- E. apply daysFromData_events, Hj.
    + cbv zeta. rewrite allDaysLoop_seqZ. reflexivity.
Qed.

End Aggregate.

Section Active.

Import DateFns App Events Buckets.
Local Open Scope Q_scope.

Variable tzOffset : Z.

(** Over a run of days that starts no later than any bucket and ends
    today, what opened minus what closed is what is still active. *)
Lemma opened_minus_closed_active f l (first today : Z) :
  (forall k, k ∈ eventDays tzOffset l -> first <= k)%Z ->
  (forall s, s ∈ l -> closesAfterOpening tzOffset s) ->
  let days := seqZ first (today - first + 1) in
  sumWhere (opensIn tzOffset days) f l - sumWhere (closesIn tzOffset days) f l
  == sumWhere (activeOn tzOffset today) f l.
Proof.
  intros Hfirst Hord days. induction l as [|s l IH].
  - reflexivity.
  - rewrite !sumWhere_cons.
    assert (Hs : opensIn tzOffset days s = bool_decide (startDay tzOffset s <= today)%Z
                 /\ closesIn tzOffset days s
                    = match endDay tzOffset s with
                      | Some e => bool_decide (e <= today)%Z
                      | None => false
                      end).
    { unfold opensIn, closesIn, days. split.
      - apply bool_decide_ext. rewrite elem_of_seqZ.
        assert (first <= startDay tzOffset s)%Z.
        { apply Hfirst. unfold eventDays. cbn. apply list_elem_of_here. }
        lia.
      - destruct (endDay tzOffset s) as [e|] eqn:Ee; [|reflexivity].
        apply bool_decide_ext. rewrite elem_of_seqZ.
        assert (first <= e)%Z.
        { apply Hfirst. unfold eventDays. cbn. rewrite Ee. cbn.
          apply list_elem_of_further, list_elem_of_here. }
        lia. }
    destruct Hs as [-> ->].
    pose proof (Hord s (list_elem_of_here _ _)) as Hos.
    unfold closesAfterOpening in Hos. unfold activeOn.
    rewrite <- IH.
    + destruct (endDay tzOffset s) as [e|];
        repeat case_bool_decide; cbn [andb]; try lia; lra.
    + intros k Hk. apply Hfirst. rewrite (eventDays_cons tzOffset s l), elem_of_app. auto.
    + intros s' Hs'. apply Hord, list_elem_of_further, Hs'.
Qed.

End Active.

Section ChartClaims.

Import DateFns App Events Buckets.
Local Open Scope Q_scope.




End ChartClaims.

Section GapFilling.

Import DateFns App Events Buckets.
Local Open Scope Z_scope.

(** The days of the series are the days of the chart. *)
Lemma aggregate_series_days tzOffset now stakers chart :
  aggregate tzOffset now stakers = JS.Returned chart ->
  pointDay <$> cumulativeData chart = allDays chart
  /\ day <$> dailyData chart = allDays chart.
Proof.
  intros H. destruct stakers as [|s l]; [discriminate|].
  destruct (aggregate_returns tzOffset now (s :: l) ltac:(discriminate))
    as (e & _ & _ & Hagg).
  cbv zeta in Hagg. rewrite Hagg in H. injection H as <-.
  cbn [cumulativeData dailyData allDays].
  rewrite cumulate_days, dailyData_days. split; reflexivity.
Qed.



(** Two records that open ten days apart, the later one today, in UTC: the
    eleven days from the first opening through today. *)
Example aggregate_eleven_days_utc :
  let r1 := mkStaker "a" 100 50 (10 * 86400 + 43200) (400 * 86400) (390 * 86400) in
  let r2 := mkStaker "b" 7 3 (20 * 86400 + 43200) (500 * 86400) (480 * 86400) in
  let now := (20 * 86400 + 46800) * 1000 in
  pointDay <$> seriesOf (aggregate 0 now [r1; r2])
  = [10; 11; 12; 13; 14; 15; 16; 17; 18; 19; 20].
Proof. vm_compute. reflexivity. Qed.

(** The bundled sample seen from UTC on 2024-03-25: both records open on
    2024-03-20 (day 19802), six days through today. *)
Example mockData_chart_days :
  pointDay <$> seriesOf (aggregate 0 1711324800000 (stakers mockData))
  = [19802; 19803; 19804; 19805; 19806; 19807].
Proof. vm_compute. reflexivity. Qed.

(** C4 at a failing input.  In a browser five hours west of Greenwich
    ([getTimezoneOffset() = 300]), two records open ten local days apart
    (days 10 and 20), the later one today; both close far in the future.
    The earliest bucket is day 10, today is day 20, yet the series has
    twelve entries and starts on day 9: the earliest key, parsed as midnight
    UTC, is the evening of the day before in local time. *)
Theorem aggregate_days_west_of_utc :
  let r1 := mkStaker "a" 100 50 (10 * 86400 + 61200) (400 * 86400) (390 * 86400) in
  let r2 := mkStaker "b" 7 3 (20 * 86400 + 61200) (500 * 86400) (480 * 86400) in
  let now := (20 * 86400 + 64800) * 1000 in
  eventDays 300 [r1; r2] = [10; 399; 20; 499]
  /\ format 300 now = 20
  /\ pointDay <$> seriesOf (aggregate 300 now [r1; r2])
     = [9; 10; 11; 12; 13; 14; 15; 16; 17; 18; 19; 20]
  /\ length (seriesOf (aggregate 300 now [r1; r2])) = 12%nat.
Proof. vm_compute. repeat split; reflexivity. Qed.

End GapFilling.

Section Anchoring.

Import DateFns App Events Buckets.
Local Open Scope Z_scope.

Lemma eventDays_of_record tzOffset stakers s :
  s ∈ stakers ->
  startDay tzOffset s ∈ eventDays tzOffset stakers
  /\ forall e, endDay tzOffset s = Some e -> e ∈ eventDays tzOffset stakers.
Proof.
  intros Hs. unfold eventDays. split.
  - apply list_elem_of_In, in_flat_map. exists s. split.
    + apply list_elem_of_In, Hs.
    + left. reflexivity.
  - intros e He. apply list_elem_of_In, in_flat_map. exists s. split.
    + apply list_elem_of_In, Hs.
    + rewrite He. right. left. reflexivity.
Qed.





End Anchoring.

Section Fallback.

Import Fetch AppState FetchData Failure.

Lemma failure_throws o : failure o -> exists err, tryBlock o = JS.Thrown err.
Proof.
  intros [e|status b|status e|status|status json H]; cbn; eauto.
  destruct (json_stakers json) as [stakers|]; eauto.
  destruct H as [H|[H|H]]; [discriminate| |]; rewrite H; cbn; eauto.
  rewrite orb_true_r. eauto.
Qed.

(** After a failed fetch the state holds the sample snapshot, the sample
    flag and the error message. *)
Lemma fetchData_failure_state o st :
  failure o ->
  exists err,
    tryBlock o = JS.Thrown err
    /\ fetchData o st
       = {| data := Some mockData; error := Some (messageOf err);
            loading := false; usingMockData := true |}.
Proof.
  intros H. destruct (failure_throws o H) as [err E]. exists err.
  split; [exact E|]. unfold fetchData. rewrite E. reflexivity.
Qed.

(** With an error message that is not empty the component returns the
    error panel, whatever snapshot the state holds. *)
Lemma App_error_gate tzOffset now d msg notice :
  msg <> ""%string ->
  Render.App tzOffset now
    {| data := d; error := Some msg; loading := false; usingMockData := notice |}
  = JS.Returned (Render.ErrorMessage msg).
Proof.
  intros Hne. unfold Render.App, errorTruthy, errorOr, JS.truthyStr. cbn.
  destruct (String.eqb_spec msg ""); [contradiction|]. reflexivity.
Qed.

Lemma failure_message_shown tzOffset now o st :
  failure o ->
  exists err,
    tryBlock o = JS.Thrown err
    /\ (messageOf err <> ""%string ->
        Render.root tzOffset now (fetchData o st)
        = Render.Children (Render.ErrorMessage (messageOf err))).
Proof.
  intros H. destruct (fetchData_failure_state o st H) as (err & E & ->).
  exists err. split; [exact E|]. intros Hne.
  unfold Render.root. rewrite App_error_gate by exact Hne. reflexivity.
Qed.

(** The earlier component does fall back: after any failure its dashboard
    is given the sample snapshot together with the notice. *)
Lemma monthly_fallback o st :
  failureMonthly o ->
  AppMonthly.gates (AppMonthly.fetchData o st)
  = AppMonthly.GateDashboard true mockData.
Proof. intros [e|status b|status e|status]; reflexivity. Qed.

(** C7 at a failing input.  The live endpoint answers HTTP 500.  The state
    then holds the sample snapshot and the sample flag, but also the error
    "HTTP error! status: 500"; the component therefore returns the error
    panel with that message, and neither the sample snapshot nor the
    sample-data notice is rendered. *)
Theorem fetchData_http_500 (tzOffset now : Z) (b : body ApiJson) (st : AppState.t) :
  let st' := fetchData (Response false 500 b) st in
  failure (Response false 500 b)
  /\ data st' = Some mockData
  /\ usingMockData st' = true
  /\ error st' = Some "HTTP error! status: 500"%string
  /\ Render.root tzOffset now st'
     = Render.Children (Render.ErrorMessage "HTTP error! status: 500").
Proof.
  cbv zeta. split; [constructor|]. repeat split; reflexivity.
Qed.

(** C10 at a failing input.  A complete payload whose total staking power
    or total staked amount is zero leaves the same state as a payload
    without that field: the sample snapshot, the sample flag and the error
    "Missing required fields in API response".  What is rendered is then
    the error panel, not the sample data with its notice. *)
Theorem fetchData_zero_total
    (tzOffset now status : Z) (ts : string) (lockups : Z) (x : Q) (d : positive)
    (stakers : list Staker) (st : AppState.t) :
  let zeroPower := mkApiJson ts (Some x) lockups (Some (0 # d)) (Some stakers) in
  let noPower := mkApiJson ts (Some x) lockups None (Some stakers) in
  let zeroStaked := mkApiJson ts (Some (0 # d)) lockups (Some x) (Some stakers) in
  let noStaked := mkApiJson ts None lockups (Some x) (Some stakers) in
  let after json := fetchData (Response true status (JsonValue (Some json))) st in
  let failed :=
    {| data := Some mockData;
       error := Some "Missing required fields in API response"%string;
       loading := false; usingMockData := true |} in
  let panel :=
    Render.Children (Render.ErrorMessage "Missing required fields in API response") in
  (after zeroPower = after noPower /\ after zeroStaked = after noStaked)
  /\ (after zeroPower = failed /\ after zeroStaked = failed)
  /\ (Render.root tzOffset now (after zeroPower) = panel
      /\ Render.root tzOffset now (after zeroStaked) = panel).
Proof.
  cbv zeta.
  assert (Z0 : FetchData.falsyField (Some (0 # d)) = true) by reflexivity.
  assert (A : forall a b,
            a = Some (0 # d) \/ a = None \/ b = Some (0 # d) \/ b = None ->
            fetchData (Response true status
                         (JsonValue (Some (mkApiJson ts b lockups a (Some stakers))))) st
            = {| data := Some mockData;
                 error := Some "Missing required fields in API response"%string;
                 loading := false; usingMockData := true |}).
  { intros a b H. unfold fetchData, tryBlock. cbn [negb json_stakers
      json_totalUIStakingPower json_totalUIStaked].
    destruct H as [-> | [-> | [-> | ->]]];
      rewrite ?Z0; cbn [falsyField]; rewrite ?orb_true_r; reflexivity. }
  repeat split; rewrite !A by auto; reflexivity.
Qed.

End Fallback.

(** * Part IV: further properties of the code *)

(** ** More on the voting-power curve *)

Section VotingPowerMore.

Local Open Scope Q_scope.
Import Utils Curve.

Lemma interp_between (a k r x : Q) :
  0 < r -> 0 <= x -> x <= r ->
  Qmin a (a + k) <= a + k * x / r /\ a + k * x / r <= Qmax a (a + k).
Proof.
  intros Hr H0 H1.
  pose proof (interp_at_0 a k r Hr) as E0.
  pose proof (interp_at_full a k r Hr) as E1.
  destruct (Qlt_le_dec k 0) as [Hk|Hk].
  - pose proof (interp_anti a k r 0 x Hr ltac:(lra) H0).
    pose proof (interp_anti a k r x r Hr ltac:(lra) H1).
    split; [apply Q.min_le_iff; right|apply Q.max_le_iff; left]; lra.
  - pose proof (interp_mono a k r 0 x Hr Hk H0).
    pose proof (interp_mono a k r x r Hr Hk H1).
    split; [apply Q.min_le_iff; left|apply Q.max_le_iff; right]; lra.
Qed.

Lemma curve_Qeq a mn mx pct d1 d2 :
  d1 == d2 -> curve a mn mx pct d1 == curve a mn mx pct d2.
Proof.
  intros E. unfold curve, JS.le, JS.ge.
  assert (B1 : Qle_bool d1 mn = Qle_bool d2 mn) by (rewrite E; reflexivity).
  assert (B2 : Qle_bool mx d1 = Qle_bool mx d2) by (rewrite E; reflexivity).
  rewrite B1, B2.
  destruct (Qle_bool d2 mn); [reflexivity|].
  destruct (Qle_bool mx d2); [reflexivity|].
  rewrite E. reflexivity.
Qed.

(** The power of a live, non-degenerate lockup lies between the raw amount
    and the saturated value, whatever the two durations of the
    configuration are. *)
Theorem calcVotingPower_between amount lockupStartTs lockupEndTs
    minDuration maxSaturation pct now :
  now <= lockupEndTs -> lockupStartTs < lockupEndTs ->
  Qmin amount ((amount * pct) / 100)
  <= calcVotingPower amount lockupStartTs lockupEndTs minDuration maxSaturation pct now
  /\ calcVotingPower amount lockupStartTs lockupEndTs minDuration maxSaturation pct now
     <= Qmax amount ((amount * pct) / 100).
Proof.
  intros H1 H2. rewrite calc_live by assumption.
  set (mp := (amount * pct) / 100).
  destruct (curve_cases amount minDuration maxSaturation pct (lockupEndTs - lockupStartTs))
    as [[A ->]|[(A & B & ->)|(A & B & ->)]].
  - split; [apply Q.le_min_l|apply Q.le_max_l].
  - fold mp. split; [apply Q.le_min_r|apply Q.le_max_r].
  - fold mp.
    destruct (interp_between amount (mp - amount) (maxSaturation - minDuration)
                (lockupEndTs - lockupStartTs - minDuration)) as [L U]; try lra.
    assert (E : amount + (mp - amount) == mp) by ring.
    rewrite E in L, U. split; assumption.
Qed.

Lemma calcVotingPower_between_witness :
  (0 <= 15768000 /\ 0 < 15768000) /\
  Qmin 100 ((100 * 400) / 100) <= calcVotingPower 100 0 15768000 0 31536000 400 0.
Proof.
  split; [split; [discriminate|reflexivity]|].
  apply (calcVotingPower_between 100 0 15768000 0 31536000 400 0);
    [discriminate|reflexivity].
Defined.

(** Only the duration of a live lockup counts, not where it lies in time:
    two live, non-degenerate lockups of the same amount and duration have
    the same power. *)
Theorem calcVotingPower_duration_only amount minDuration maxSaturation pct
    s1 e1 now1 s2 e2 now2 :
  now1 <= e1 -> s1 < e1 -> now2 <= e2 -> s2 < e2 ->
  e1 - s1 == e2 - s2 ->
  calcVotingPower amount s1 e1 minDuration maxSaturation pct now1
  == calcVotingPower amount s2 e2 minDuration maxSaturation pct now2.
Proof.
  intros L1 N1 L2 N2 E. rewrite !calc_live by assumption.
  apply curve_Qeq, E.
Qed.

Lemma calcVotingPower_duration_only_witness :
  calcVotingPower 100 0 15768000 0 31536000 400 0
  == calcVotingPower 100 1000 15769000 0 31536000 400 2000.
Proof.
  apply calcVotingPower_duration_only; try discriminate; reflexivity.
Defined.




End VotingPowerMore.

(** ** More on the percentile thresholds *)

Section ThresholdsMore.

Local Open Scope Q_scope.
Import Utils Ranking RankingMore.

Lemma sortDesc_strongly l : StronglySorted byPowerDesc (sortDesc l).
Proof.
  apply Sorted_StronglySorted; [apply byPowerDesc_trans|apply sortDesc_sorted].
Qed.

(** In a descending list a later position never carries a larger power. *)
Lemma descending_lookup (l : list Staker) i j a b :
  StronglySorted byPowerDesc l -> (i <= j)%nat ->
  l !! i = Some a -> l !! j = Some b ->
  uiStakingPower b <= uiStakingPower a.
Proof.
  intros Hs Hij Ha Hb.
  destruct (decide (i = j)) as [->|Hne].
  - rewrite Ha in Hb. injection Hb as ->. apply Qle_refl.
  - rewrite <- (take_drop j l) in Hs.
    apply (StronglySorted_app_1_elem_of _ _ _ a b Hs).
    + apply list_elem_of_lookup. exists i. rewrite lookup_take_lt by lia. exact Ha.
    + apply list_elem_of_lookup. exists 0%nat. rewrite lookup_drop, Nat.add_0_r. exact Hb.
Qed.

Lemma countAbove_perm t (l1 l2 : list Staker) :
  l1 ≡ₚ l2 -> countAbove t l1 = countAbove t l2.
Proof.
  unfold countAbove. induction 1 as [|x l1 l2 _ IH|x y l|l1 l2 l3 _ IH1 _ IH2];
    cbn [List.filter].
  - reflexivity.
  - destruct (JS.gt _ _); cbn [length]; rewrite IH; reflexivity.
  - destruct (JS.gt (uiStakingPower x) t), (JS.gt (uiStakingPower y) t); reflexivity.
  - rewrite IH1. exact IH2.
Qed.

Lemma countAbove_Qeq t t' l : t == t' -> countAbove t l = countAbove t' l.
Proof.
  intros E. unfold countAbove. f_equal. apply List.filter_ext.
  intros s. unfold JS.gt. rewrite E. reflexivity.
Qed.

Lemma countAbove_none t l :
  Forall (fun s => uiStakingPower s <= t) l -> countAbove t l = 0%nat.
Proof.
  unfold countAbove. induction 1 as [|s l Hs _ IH]; cbn [List.filter]; [reflexivity|].
  apply gt_false in Hs. rewrite Hs. exact IH.
Qed.

Lemma countAbove_app t l1 l2 :
  countAbove t (l1 ++ l2) = (countAbove t l1 + countAbove t l2)%nat.
Proof. unfold countAbove. rewrite List.filter_app, length_app. reflexivity. Qed.

Lemma countAbove_le_length t l : (countAbove t l <= length l)%nat.
Proof. unfold countAbove. apply List.filter_length_le. Qed.

(** In a descending list, only positions before [i] can carry a power
    above the one at position [i]. *)
Lemma descending_countAbove (l : list Staker) i x :
  StronglySorted byPowerDesc l -> l !! i = Some x ->
  (countAbove (uiStakingPower x) l <= i)%nat.
Proof.
  intros Hs Hx. rewrite <- (take_drop i l), countAbove_app.
  rewrite (countAbove_none _ (drop i l)).
  - pose proof (countAbove_le_length (uiStakingPower x) (take i l)) as H.
    rewrite length_take in H. lia.
  - apply Forall_forall. intros s Hin.
    apply list_elem_of_lookup in Hin as [j Hj]. rewrite lookup_drop in Hj.
    apply (descending_lookup l i (i + j) x s Hs); [lia|exact Hx|exact Hj].
Qed.

Lemma sortDesc_length l : length (sortDesc l) = length l.
Proof. rewrite (sortDesc_perm l). reflexivity. Qed.

Lemma sortDesc_lookup_lt l i :
  (i < length l)%nat -> exists x, sortDesc l !! i = Some x /\ x ∈ l.
Proof.
  intros Hi. destruct (sortDesc l !! i) as [x|] eqn:E.
  - exists x. split; [reflexivity|]. rewrite <- (sortDesc_perm l).
    apply list_elem_of_lookup. eauto.
  - apply lookup_ge_None in E. rewrite sortDesc_length in E. lia.
Qed.

Lemma div_lt_length (n d : nat) : (1 <= n)%nat -> (2 <= d)%nat -> (n / d < n)%nat.
Proof. intros Hn Hd. apply Nat.div_lt; lia. Qed.

(** The order of the records does not matter to the thresholds. *)
Theorem getPercentileThresholds_perm (stakers stakers' : list Staker) :
  stakers ≡ₚ stakers' ->
  top1 (getPercentileThresholds stakers) == top1 (getPercentileThresholds stakers')
  /\ top10 (getPercentileThresholds stakers) == top10 (getPercentileThresholds stakers').
Proof.
  intros Hp.
  destruct (thresholds_at_sortDesc stakers) as [A1 A10].
  destruct (thresholds_at_sortDesc stakers') as [B1 B10].
  rewrite A1, A10, B1, B10, (Permutation_length Hp).
  assert (Hs : sortDesc stakers ≡ₚ sortDesc stakers')
    by (rewrite !sortDesc_perm; exact Hp).
  split; apply sorted_powers_unique; auto using sortDesc_sorted.
Qed.

Lemma getPercentileThresholds_perm_witness :
  let a := mkStaker "a" 3 1 0 10 10 in
  let b := mkStaker "b" 7 2 0 10 10 in
  top1 (getPercentileThresholds [a; b]) == top1 (getPercentileThresholds [b; a]).
Proof.
  intros a b.
  exact (proj1 (getPercentileThresholds_perm [a; b] [b; a] (Permutation_swap _ _ _))).
Defined.

(** The top-10% threshold is never above the top-1% threshold. *)
Theorem getPercentileThresholds_ordered (stakers : list Staker) :
  top10 (getPercentileThresholds stakers) <= top1 (getPercentileThresholds stakers).
Proof.
  destruct (thresholds_at_sortDesc stakers) as [A1 A10]. rewrite A1, A10.
  destruct stakers as [|s l]; [apply Qle_refl|].
  set (st := s :: l) in *.
  assert (Hn : (1 <= length st)%nat) by (cbn; lia).
  destruct (sortDesc_lookup_lt st (length st / 100)) as (x & Hx & _);
    [apply div_lt_length; lia|].
  destruct (sortDesc_lookup_lt st (length st / 10)) as (y & Hy & _);
    [apply div_lt_length; lia|].
  unfold powerAt. rewrite Hx, Hy.
  apply (descending_lookup (sortDesc st) (length st / 100) (length st / 10));
    auto using sortDesc_strongly.
  apply Nat.div_le_compat_l. lia.
Qed.

(** With at least one record, each threshold is the staking power of some
    record of the list. *)
Theorem getPercentileThresholds_attained (stakers : list Staker) :
  stakers <> [] ->
  (exists s, s ∈ stakers /\ uiStakingPower s == top1 (getPercentileThresholds stakers))
  /\ (exists s, s ∈ stakers /\ uiStakingPower s == top10 (getPercentileThresholds stakers)).
Proof.
  intros Hne.
  destruct (thresholds_at_sortDesc stakers) as [A1 A10].
  assert (Hn : (1 <= length stakers)%nat).
  { destruct stakers; [congruence|cbn; lia]. }
  destruct (sortDesc_lookup_lt stakers (length stakers / 100)) as (x & Hx & Hxin);
    [apply div_lt_length; lia|].
  destruct (sortDesc_lookup_lt stakers (length stakers / 10)) as (y & Hy & Hyin);
    [apply div_lt_length; lia|].
  unfold powerAt in A1, A10. rewrite Hx in A1. rewrite Hy in A10.
  split; [exists x|exists y]; split; auto; symmetry; assumption.
Qed.

Lemma getPercentileThresholds_attained_witness :
  let a := mkStaker "a" 3 1 0 10 10 in
  exists s, s ∈ [a] /\ uiStakingPower s == top1 (getPercentileThresholds [a]).
Proof.
  intros a. exact (proj1 (getPercentileThresholds_attained [a] ltac:(discriminate))).
Defined.

(** What the thresholds mean: at most one record in a hundred has a
    staking power strictly above [top1], and at most one in ten strictly
    above [top10]. *)
Theorem getPercentileThresholds_rank (stakers : list Staker) :
  (countAbove (top1 (getPercentileThresholds stakers)) stakers
   <= length stakers / 100)%nat
  /\ (countAbove (top10 (getPercentileThresholds stakers)) stakers
      <= length stakers / 10)%nat.
Proof.
  destruct stakers as [|s l]; [split; cbn; lia|].
  set (st := s :: l) in *.
  destruct (thresholds_at_sortDesc st) as [A1 A10].
  assert (Hn : (1 <= length st)%nat) by (cbn; lia).
  destruct (sortDesc_lookup_lt st (length st / 100)) as (x & Hx & _);
    [apply div_lt_length; lia|].
  destruct (sortDesc_lookup_lt st (length st / 10)) as (y & Hy & _);
    [apply div_lt_length; lia|].
  unfold powerAt in A1, A10. rewrite Hx in A1. rewrite Hy in A10.
  rewrite (countAbove_Qeq _ _ st A1), (countAbove_Qeq _ _ st A10).
  rewrite <- !(countAbove_perm _ _ _ (sortDesc_perm st)).
  split; apply descending_countAbove; auto using sortDesc_strongly.
Qed.

(** With fewer than a hundred records, [top1] is the largest staking power
    of the list. *)
Theorem getPercentileThresholds_top1_small (stakers : list Staker) :
  (length stakers < 100)%nat ->
  forall s, s ∈ stakers ->
    uiStakingPower s <= top1 (getPercentileThresholds stakers).
Proof.
  intros Hn s Hs.
  destruct (thresholds_at_sortDesc stakers) as [A1 _]. rewrite A1.
  rewrite Nat.div_small by exact Hn.
  rewrite <- (sortDesc_perm stakers) in Hs.
  apply list_elem_of_lookup in Hs as [j Hj].
  destruct (sortDesc stakers !! 0%nat) as [x|] eqn:Hx.
  - unfold powerAt. rewrite Hx.
    apply (descending_lookup (sortDesc stakers) 0 j x s);
      auto using sortDesc_strongly. lia.
  - apply lookup_ge_None in Hx. apply lookup_lt_Some in Hj. lia.
Qed.

Lemma getPercentileThresholds_top1_small_witness :
  uiStakingPower (mkStaker "a" 3 1 0 10 10)
  <= top1 (getPercentileThresholds [mkStaker "a" 3 1 0 10 10; mkStaker "b" 7 2 0 10 10]).
Proof.
  apply getPercentileThresholds_top1_small.
  - cbn. lia.
  - apply list_elem_of_here.
Defined.

End ThresholdsMore.

(** ** More on the fetcher and the render gates *)

Section FetcherMore.

Import Fetch AppState FetchData Failure.

Lemma truthyQ_true (q : Q) : JS.truthyQ q = true <-> ~ (q == 0)%Q.
Proof.
  unfold JS.truthyQ. rewrite negb_true_iff. split.
  - intros H E. apply Qeq_bool_iff in E. congruence.
  - intros H. destruct (Qeq_bool q 0) eqn:E; [|reflexivity].
    apply Qeq_bool_iff in E. contradiction.
Qed.

Lemma falsyField_false (f : option Q) :
  falsyField f = false <-> exists q, f = Some q /\ ~ (q == 0)%Q.
Proof.
  destruct f as [q|]; cbn.
  - rewrite negb_false_iff, truthyQ_true. split; [eauto|].
    intros (q' & [= <-] & H). exact H.
  - split; [discriminate|]. intros (q & H & _). discriminate.
Qed.

(** What the validation lets through. *)
Lemma tryBlock_returned o snap :
  tryBlock o = JS.Returned snap <->
  exists status json,
    o = Response true status (JsonValue (Some json))
    /\ json_stakers json = Some (stakers snap)
    /\ json_totalUIStakingPower json = Some (totalUIStakingPower snap)
    /\ json_totalUIStaked json = Some (totalUIStaked snap)
    /\ ~ (totalUIStakingPower snap == 0)%Q
    /\ ~ (totalUIStaked snap == 0)%Q
    /\ ts snap = json_ts json
    /\ totalLockups snap = json_totalLockups json.
Proof.
  split.
  - destruct o as [e|[|] status [e|[json|]]]; cbn; try discriminate.
    destruct (json_stakers json) as [ss|] eqn:Es; [|discriminate].
    destruct (falsyField (json_totalUIStakingPower json)) eqn:Ep; [discriminate|].
    destruct (falsyField (json_totalUIStaked json)) eqn:Et; [discriminate|].
    apply falsyField_false in Ep as (p & Ep & Hp).
    apply falsyField_false in Et as (t & Et & Ht).
    cbn. intros [= <-]. cbn. rewrite Ep, Et. cbn.
    exists status, json. rewrite Es, Ep, Et. repeat split; assumption.
  - intros (status & json & -> & Es & Ep & Et & Hp & Ht & Hts & Hl). cbn.
    rewrite Es.
    assert (F1 : falsyField (json_totalUIStakingPower json) = false)
      by (apply falsyField_false; eauto).
    assert (F2 : falsyField (json_totalUIStaked json) = false)
      by (apply falsyField_false; eauto).
    rewrite F1, F2. cbn. rewrite Ep, Et. cbn.
    destruct snap; cbn in *. subst. reflexivity.
Qed.

(** A fetch replaces the whole state: nothing of the state before it is
    left, so a later fetch wipes what an earlier one stored, its error
    included; and the state after a fetch is never loading and never
    without a snapshot. *)
Theorem fetchData_replaces_state (o1 o2 : outcome ApiJson) (st st' : AppState.t) :
  fetchData o2 (fetchData o1 st) = fetchData o2 st'
  /\ loading (fetchData o2 st) = false
  /\ is_Some (data (fetchData o2 st)).
Proof.
  unfold fetchData. destruct (tryBlock o2); cbn; repeat split; eauto.
Qed.

(** After a fetch the state is one of two kinds: the sample snapshot with
    the sample flag and an error message, or a live snapshot that passed
    the validation (both totals non-zero) with neither flag nor error. *)
Theorem fetchData_state_kinds (o : outcome ApiJson) (st : AppState.t) :
  let st' := fetchData o st in
  (usingMockData st' = true /\ data st' = Some mockData
   /\ exists msg, error st' = Some msg)
  \/ (usingMockData st' = false /\ error st' = None
      /\ exists snap, data st' = Some snap
         /\ ~ (totalUIStakingPower snap == 0)%Q /\ ~ (totalUIStaked snap == 0)%Q).
Proof.
  cbv zeta. unfold fetchData. destruct (tryBlock o) as [err|snap] eqn:E; cbn.
  - left. eauto.
  - right. apply tryBlock_returned in E as (status & json & _ & _ & _ & _ & Hp & Ht & _).
    repeat split; eauto.
Qed.



(** An empty record array passes the validation (an array is truthy), and
    the chart pipeline then throws: a live payload without records ends in
    the failure panel of the error boundary, not in the sample data. *)
Theorem live_payload_without_records (tzOffset now status lockups : Z) (t : string)
    (staked power : Q) (st : AppState.t) :
  ~ (staked == 0)%Q -> ~ (power == 0)%Q ->
  let json := mkApiJson t (Some staked) lockups (Some power) (Some []) in
  let st' := fetchData (Response true status (JsonValue (Some json))) st in
  usingMockData st' = false
  /\ error st' = None
  /\ Render.root tzOffset now st'
     = Render.SomethingWentWrong
         (Some "No staker data available to determine date range.").
Proof.
  intros Hs Hp json st'.
  assert (E : tryBlock (Response true status (JsonValue (Some json)))
              = JS.Returned (mkStakerSnapshot t staked lockups power [])).
  { apply tryBlock_returned. exists status, json. repeat split; assumption. }
  subst st'. unfold fetchData. rewrite E. repeat split.
Qed.

Lemma live_payload_without_records_witness :
  Render.root 0 0
    (fetchData (Response true 200
                  (JsonValue (Some (mkApiJson "t" (Some 1%Q) 0 (Some 1%Q) (Some [])))))
               initial)
  = Render.SomethingWentWrong
      (Some "No staker data available to determine date range.").
Proof.
  exact (proj2 (proj2 (live_payload_without_records 0 0 200 0 "t" 1 1 initial
                         ltac:(discriminate) ltac:(discriminate)))).
Defined.

(** The sample-data notice needs a thrown error with an empty message: if
    the screen after a fetch is the dashboard with the notice, then the
    request or the reading of the body rejected with such an error.  No
    response the component itself turns down (bad status, missing payload,
    missing fields) gets there. *)
Theorem sample_notice_needs_empty_message (tzOffset now : Z)
    (o : outcome ApiJson) (st : AppState.t) snap avg series thresholds :
  Render.root tzOffset now (fetchData o st)
  = Render.Children (Render.Dashboard true snap avg series thresholds) ->
  o = FetchRejects (JS.Error "")
  \/ exists status, o = Response true status (JsonRejects (JS.Error "")).
Proof.
  unfold Render.root, Render.App, fetchData.
  destruct (tryBlock o) as [err|live] eqn:E; cbn.
  - assert (Hm : messageOf err <> ""%string ->
                 Render.ErrorBoundary
                   (if JS.truthyStr (messageOf err)
                    then JS.Returned (Render.ErrorMessage
                           (if JS.truthyStr (messageOf err) then messageOf err
                            else "Failed to load staker data"))
                    else
                      match App.aggregate tzOffset now (stakers mockData) with
                      | JS.Thrown e => JS.Thrown e
                      | JS.Returned chart =>
                          JS.Returned
                            (Render.Dashboard true mockData
                               (Render.avgDuration (stakers mockData))
                               (App.cumulativeData chart)
                               (Utils.getPercentileThresholds (stakers mockData)))
                      end)
                 <> Render.Children (Render.Dashboard true snap avg series thresholds)).
    { intros Hne. unfold JS.truthyStr.
      destruct (String.eqb_spec (messageOf err) ""); [contradiction|]. cbn. discriminate. }
    intros H.
    destruct (string_dec (messageOf err) "") as [Hempty|Hne];
      [|exfalso; exact (Hm Hne H)].
    clear Hm H.
    destruct o as [e|[|] status [e|[json|]]]; cbn in E.
    + injection E as <-. destruct e; cbn in Hempty; [subst; auto|discriminate].
    + injection E as <-. destruct e; cbn in Hempty; [subst; eauto|discriminate].
    + destruct (json_stakers json);
        [destruct (falsyField _ || falsyField _)|]; try discriminate;
        injection E as <-; discriminate.
    + injection E as <-. discriminate.
    + injection E as <-. discriminate.
    + injection E as <-. discriminate.
    + injection E as <-. discriminate.
  - destruct (App.aggregate tzOffset now (stakers live)) as [e|chart];
      [destruct e|]; discriminate.
Qed.

Lemma sample_notice_needs_empty_message_witness :
  FetchRejects (JS.Error "") = FetchRejects (P := ApiJson) (JS.Error "")
  \/ exists status, FetchRejects (JS.Error "")
                    = Response (P := ApiJson) true status (JsonRejects (JS.Error "")).
Proof.
  eapply (sample_notice_needs_empty_message 0 1711324800000 _ initial).
  vm_compute. reflexivity.
Defined.

(** The earlier component, by contrast, never shows the error panel after
    a fetch: any failure gives the dashboard the sample snapshot with the
    notice, and a parsed payload is handed over as it is, unvalidated,
    without the notice. *)
Theorem monthly_fetch_screens (st : AppState.t) :
  (forall o, failureMonthly o ->
     AppMonthly.gates (AppMonthly.fetchData o st)
     = AppMonthly.GateDashboard true mockData)
  /\ (forall status json,
        AppMonthly.gates
          (AppMonthly.fetchData (Response true status (JsonValue (Some json))) st)
        = AppMonthly.GateDashboard false json).
Proof.
  split.
  - intros o [e|status b|status e|status]; reflexivity.
  - reflexivity.
Qed.

Lemma monthly_fetch_screens_witness :
  AppMonthly.gates (AppMonthly.fetchData (Response false 500 (JsonValue None)) initial)
  = AppMonthly.GateDashboard true mockData.
Proof.
  apply (proj1 (monthly_fetch_screens initial)). constructor.
Defined.

End FetcherMore.

(** ** More on the chart pipeline *)

Section ChartMore.

Import DateFns App Events Buckets ChartEq.
Local Open Scope Q_scope.

Lemma take_seqZ (m n : Z) (i : nat) :
  (Z.of_nat i <= n)%Z -> take i (seqZ m n) = seqZ m (Z.of_nat i).
Proof.
  intros Hi.
  replace n with (Z.of_nat i + (n - Z.of_nat i))%Z by lia.
  rewrite seqZ_app by lia.
  apply take_app_length'. rewrite length_seqZ. lia.
Qed.

Lemma sumWhere_perm c f (l l' : list Staker) :
  l ≡ₚ l' -> sumWhere c f l == sumWhere c f l'.
Proof.
  induction 1 as [|x l1 l2 _ IH|x y l|l1 l2 l3 _ IH1 _ IH2].
  - reflexivity.
  - rewrite !sumWhere_cons, IH. reflexivity.
  - rewrite !sumWhere_cons. lra.
  - rewrite IH1. exact IH2.
Qed.

Lemma netOn_perm f tzOffset k (l l' : list Staker) :
  l ≡ₚ l' -> netOn f tzOffset k l == netOn f tzOffset k l'.
Proof.
  intros Hp. unfold netOn.
  rewrite (sumWhere_perm _ f l l' Hp), (sumWhere_perm (closesOn tzOffset k) f l l' Hp).
  reflexivity.
Qed.

Lemma eventDays_perm tzOffset (l l' : list Staker) :
  l ≡ₚ l' -> eventDays tzOffset l ≡ₚ eventDays tzOffset l'.
Proof. intros Hp. unfold eventDays. apply Permutation_flat_map, Hp. Qed.

Lemma cumulate_same a a' b b' l l' :
  a == a' -> b == b' -> Forall2 sameDelta l l' ->
  Forall2 samePoint (cumulate a b l) (cumulate a' b' l').
Proof.
  intros Ha Hb H. revert a a' b b' Ha Hb.
  induction H as [|d d' l l' (Hd & Hp & Hm) _ IH]; intros a a' b b' Ha Hb;
    cbn [cumulate]; constructor.
  - unfold samePoint. cbn. rewrite Hd, Ha, Hb, Hp, Hm. repeat split; reflexivity.
  - apply IH; [rewrite Ha, Hp|rewrite Hb, Hm]; reflexivity.
Qed.

Lemma dailyData_same tzOffset (l l' : list Staker) days :
  l ≡ₚ l' ->
  Forall2 sameDelta (dailyDataOf (dailyAggregation tzOffset l) days)
                    (dailyDataOf (dailyAggregation tzOffset l') days).
Proof.
  intros Hp. unfold dailyDataOf.
  induction days as [|k days IH]; cbn [map]; constructor; [|exact IH].
  unfold sameDelta.
  rewrite !entryOr_day by apply dailyAggregation_keyed.
  rewrite !(dailyAggregation_delta tzOffset _ uiStakingPower)
    by (left; split; reflexivity).
  rewrite !(dailyAggregation_delta tzOffset _ uiAmount)
    by (right; split; reflexivity).
  repeat split; apply netOn_perm, Hp.
Qed.





End ChartMore.

Section ChartDays.

Import DateFns App Events Buckets ChartEq.
Local Open Scope Q_scope.

(** The chart as [aggregate_returns] gives it, point by point. *)
Lemma aggregate_point tzOffset now stakers earliest i pt :
  let first := format tzOffset (dateOfDayKey earliest) in
  let days := seqZ first (format tzOffset now - first + 1) in
  let daily := dailyDataOf (dailyAggregation tzOffset stakers) days in
  cumulate 0 0 daily !! i = Some pt ->
  (Z.of_nat i < format tzOffset now - first + 1)%Z
  /\ pointDay pt = (first + Z.of_nat i)%Z
  /\ totalStakingPower pt
     == sumWhere (opensIn tzOffset (seqZ first (Z.of_nat (S i)))) uiStakingPower stakers
        - sumWhere (closesIn tzOffset (seqZ first (Z.of_nat (S i)))) uiStakingPower stakers
  /\ totalMeStaked pt
     == sumWhere (opensIn tzOffset (seqZ first (Z.of_nat (S i)))) uiAmount stakers
        - sumWhere (closesIn tzOffset (seqZ first (Z.of_nat (S i)))) uiAmount stakers.
Proof.
  intros first days daily Hpt.
  assert (Hi : (i < length days)%nat).
  { apply lookup_lt_Some in Hpt.
    rewrite cumulate_length in Hpt. unfold daily, dailyDataOf in Hpt.
    rewrite length_map in Hpt. exact Hpt. }
  unfold days in Hi. rewrite length_seqZ in Hi.
  assert (Hn : (Z.of_nat i < format tzOffset now - first + 1)%Z) by lia.
  split; [exact Hn|]. split.
  - assert (Hd : (pointDay <$> cumulate 0 0 daily) !! i = Some (pointDay pt))
      by (rewrite list_lookup_fmap, Hpt; reflexivity).
    rewrite cumulate_days in Hd. unfold daily in Hd. rewrite dailyData_days in Hd.
    unfold days in Hd. apply lookup_seqZ in Hd as [Hd _]. exact Hd.
  - destruct (cumulate_lookup _ _ _ _ _ Hpt) as [Hp Hm].
    assert (Ht : take (S i) daily
                 = dailyDataOf (dailyAggregation tzOffset stakers)
                     (seqZ first (Z.of_nat (S i)))).
    { unfold daily, dailyDataOf, days.
      rewrite <- (take_seqZ first (format tzOffset now - first + 1) (S i)) by lia.
      symmetry. apply fmap_take. }
    rewrite Ht in Hp, Hm.
    split.
    + rewrite Hp, Qplus_0_l.
      apply Qsum_dailyData; [left; split; reflexivity|apply NoDup_seqZ].
    + rewrite Hm, Qplus_0_l.
      apply Qsum_dailyData; [right; split; reflexivity|apply NoDup_seqZ].
Qed.







End ChartDays.

(** ** Sums per bucket *)

Section Buckets.

Import Events Bucketing.
Local Open Scope Q_scope.

Lemma Qsum_perm (l l' : list Q) : l ≡ₚ l' -> Qsum l == Qsum l'.
Proof.
  induction 1 as [|x l1 l2 _ IH|x y l|l1 l2 l3 _ IH1 _ IH2].
  - reflexivity.
  - rewrite !Qsum_cons, IH. reflexivity.
  - rewrite !Qsum_cons. lra.
  - rewrite IH1. exact IH2.
Qed.

Lemma total_cons f s l : total f (s :: l) = f s + total f l.
Proof. reflexivity. Qed.

Lemma sumWhere_all c f l :
  (forall s, s ∈ l -> c s = true) -> sumWhere c f l == total f l.
Proof.
  induction l as [|s l IH]; intros H; [reflexivity|].
  rewrite sumWhere_cons, total_cons, (H s) by apply list_elem_of_here.
  rewrite IH; [reflexivity|]. intros s' Hs'. apply H, list_elem_of_further, Hs'.
Qed.

Lemma bucketSum_cons b f k s l :
  bucketSum b f k (s :: l)
  == (if bool_decide (b s = k) then f s else 0) + bucketSum b f k l.
Proof. apply sumWhere_cons. Qed.

(** Over distinct keys that cover the buckets of all records, the sums per
    bucket add up to the sum over all records. *)
Lemma Qsum_bucketSum b f l (keys : list Z) :
  NoDup keys -> (forall s, s ∈ l -> b s ∈ keys) ->
  Qsum ((fun k => bucketSum b f k l) <$> keys) == total f l.
Proof.
  intros Hnd. induction l as [|s l IH]; intros Hin.
  - clear Hnd Hin. induction keys as [|k keys IHk]; cbn [fmap list_fmap]; [reflexivity|].
    rewrite Qsum_cons, IHk. unfold bucketSum, sumWhere, total. cbn [List.filter foldr]. lra.
  - rewrite total_cons, <- IH by (intros s' Hs'; apply Hin, list_elem_of_further, Hs').
    assert (Hs : Qsum ((fun k => if bool_decide (b s = k) then f s else 0) <$> keys)
                 == f s).
    { rewrite Qsum_indicator by exact Hnd.
      rewrite bool_decide_eq_true_2 by apply Hin, list_elem_of_here. reflexivity. }
    rewrite <- Hs. clear.
    induction keys as [|k keys IHk]; cbn [fmap list_fmap]; [rewrite !Qsum_nil; lra|].
    rewrite !Qsum_cons, IHk, bucketSum_cons. lra.
Qed.

(** A list sorted by a key whose values are distinct is strictly sorted. *)
Lemma sorted_distinct_strict {A} (key : A -> Z) (l : list A) :
  StronglySorted (fun a b => key a <= key b)%Z l -> NoDup (key <$> l) ->
  StronglySorted Z.lt (key <$> l).
Proof.
  induction 1 as [|a l Hs IH Hall]; cbn [fmap list_fmap]; intros Hnd; [constructor|].
  apply NoDup_cons in Hnd as [Hnotin Hnd].
  constructor; [apply IH, Hnd|].
  apply Forall_fmap, Forall_forall. intros x Hx. cbn.
  rewrite Forall_forall in Hall. specialize (Hall x Hx).
  assert (key a <> key x).
  { intros E. apply Hnotin. rewrite E. apply list_elem_of_fmap. eauto. }
  lia.
Qed.

(** The values of a map, read through its keys. *)
Lemma map_values_by_key {V} (m : gmap Z V) (dflt : Z -> V) :
  (map_to_list m).*2 = (fun k => default (dflt k) (m !! k)) <$> (map_to_list m).*1.
Proof.
  assert (H : forall l : list (Z * V),
            (forall k v, (k, v) ∈ l -> m !! k = Some v) ->
            l.*2 = (fun k => default (dflt k) (m !! k)) <$> l.*1).
  { induction l as [|[k v] l IH]; intros Hl; cbn; [reflexivity|].
    rewrite (Hl k v) by apply list_elem_of_here. cbn. f_equal.
    apply IH. intros k' v' Hin. apply Hl, list_elem_of_further, Hin. }
  apply H. intros k v Hin. apply elem_of_map_to_list, Hin.
Qed.

Lemma map_keys_elem {V} (m : gmap Z V) k :
  k ∈ (map_to_list m).*1 <-> is_Some (m !! k).
Proof.
  rewrite list_elem_of_fmap. split.
  - intros ([k' v] & -> & H). apply elem_of_map_to_list in H. eexists; exact H.
  - intros [v H]. exists (k, v). split; [reflexivity|]. apply elem_of_map_to_list, H.
Qed.

End Buckets.

(** ** The monthly chart of the earlier [App] *)

Section Monthly.

Import Events Bucketing MonthlyChart.
Local Open Scope Q_scope.

Variable monthOf : Z -> Z.

Local Abbreviation month := (startMonth monthOf).


Lemma addPower_lookup acc s j :
  addPower monthOf acc s !! j
  = if decide (month s = j)
    then Some (match acc !! j with Some v => JS.orZero v | None => 0 end
               + uiStakingPower s)
    else acc !! j.
Proof.
  unfold addPower. fold (month s). rewrite lookup_insert.
  case_decide as E; [subst j|]; reflexivity.
Qed.

Lemma addPower_value acc s j :
  valueOr (addPower monthOf acc s) j
  == valueOr acc j + (if bool_decide (month s = j) then uiStakingPower s else 0).
Proof.
  unfold valueOr. rewrite addPower_lookup.
  case_decide as E; case_bool_decide; try congruence; cbn [default]; [|lra].
  destruct (acc !! j) as [v|]; cbn [default]; [rewrite orZero_eq|]; reflexivity.
Qed.

Lemma addPower_is_Some acc s j :
  is_Some (addPower monthOf acc s !! j) <-> month s = j \/ is_Some (acc !! j).
Proof.
  rewrite addPower_lookup. case_decide as E.
  - split; [auto|]. intros _. eexists; reflexivity.
  - split; [auto|]. intros [H|H]; [contradiction|exact H].
Qed.

Lemma fold_addPower_value l acc j :
  valueOr (fold_left (addPower monthOf) l acc) j
  == valueOr acc j + bucketSum month uiStakingPower j l.
Proof.
  revert acc. induction l as [|s l IH]; intros acc; cbn [fold_left].
  - unfold bucketSum, sumWhere, total. cbn [List.filter foldr]. lra.
  - rewrite IH, addPower_value, bucketSum_cons. lra.
Qed.

Lemma fold_addPower_is_Some l acc j :
  is_Some (fold_left (addPower monthOf) l acc !! j)
  <-> (exists s, s ∈ l /\ month s = j) \/ is_Some (acc !! j).
Proof.
  revert acc. induction l as [|s l IH]; intros acc; cbn [fold_left].
  - split; [auto|]. intros [(s & Hs & _)|H]; [apply elem_of_nil in Hs; contradiction|exact H].
  - rewrite IH, addPower_is_Some. split.
    + intros [(s' & Hs' & E)|[E|H]]; [left|left|right; exact H].
      * exists s'. split; [apply list_elem_of_further, Hs'|exact E].
      * exists s. split; [apply list_elem_of_here|exact E].
    + intros [(s' & Hs' & E)|H]; [|auto].
      apply elem_of_cons in Hs' as [->|Hs']; [auto|].
      left. exists s'. auto.
Qed.

Lemma powerGrowthData_is_Some l j :
  is_Some (powerGrowthData monthOf l !! j) <-> exists s, s ∈ l /\ month s = j.
Proof.
  unfold powerGrowthData. rewrite fold_addPower_is_Some, lookup_empty.
  split; [intros [H|[? H]]; [exact H|discriminate]|auto].
Qed.

Lemma powerGrowthData_value l j v :
  powerGrowthData monthOf l !! j = Some v ->
  v == bucketSum month uiStakingPower j l.
Proof.
  intros H. pose proof (fold_addPower_value l ∅ j) as E.
  fold (powerGrowthData monthOf l) in E. unfold valueOr in E.
  rewrite H, lookup_empty in E. cbn [default] in E. rewrite E. lra.
Qed.

Lemma byKey_trans : Transitive byKey.
Proof. intros a b c. unfold byKey. lia. Qed.

Lemma byKey_total : Total byKey.
Proof. intros a b. unfold byKey. lia. Qed.


End Monthly.

(** ** The cumulative chart of the second [App] *)

Section Daily.

Import Events Bucketing DailyChart DailyNotions.
Local Open Scope Q_scope.

Variable tzOffset : Z.

Local Abbreviation start := (startDay tzOffset).

Lemma Qsum_bucketSum_in b f l (keys : list Z) :
  NoDup keys ->
  Qsum ((fun k => bucketSum b f k l) <$> keys)
  == sumWhere (fun s => bool_decide (b s ∈ keys)) f l.
Proof.
  intros Hnd. induction l as [|s l IH].
  - clear Hnd. induction keys as [|k keys IHk]; cbn [fmap list_fmap]; [reflexivity|].
    rewrite Qsum_cons, IHk. unfold bucketSum, sumWhere, total. cbn [List.filter foldr]. lra.
  - rewrite sumWhere_cons, <- IH, <- (Qsum_indicator (b s) (f s) keys Hnd). clear.
    induction keys as [|k keys IHk]; cbn [fmap list_fmap]; [rewrite !Qsum_nil; lra|].
    rewrite !Qsum_cons, IHk, bucketSum_cons. lra.
Qed.

Lemma addStaker_lookup acc s j :
  addStaker tzOffset acc s !! j
  = if decide (start s = j)
    then Some (mkDayTotal (day (entryOf acc j))
                 (totalStakingPower (entryOf acc j) + uiStakingPower s)
                 (totalMeStaked (entryOf acc j) + uiAmount s))
    else acc !! j.
Proof.
  unfold addStaker, entryOf. fold (start s).
  rewrite !lookup_alter. case_decide as E.
  - subst j. rewrite decide_True by reflexivity.
    destruct (acc !! start s) as [e|] eqn:Ee.
    + rewrite Ee. reflexivity.
    + rewrite lookup_insert_eq. reflexivity.
  - destruct (acc !! start s); [reflexivity|].
    rewrite lookup_insert_ne by exact E. reflexivity.
Qed.

Lemma entryOf_day acc k : keyedTotals acc -> day (entryOf acc k) = k.
Proof.
  intros Hk. unfold entryOf. destruct (acc !! k) eqn:E; cbn; [apply Hk, E|reflexivity].
Qed.

Lemma addStaker_keyed acc s : keyedTotals acc -> keyedTotals (addStaker tzOffset acc s).
Proof.
  intros Hk j e. rewrite addStaker_lookup. case_decide as E.
  - intros [= <-]. cbn. apply entryOf_day, Hk.
  - apply Hk.
Qed.

Lemma addStaker_entry acc s j :
  totalStakingPower (entryOf (addStaker tzOffset acc s) j)
  == totalStakingPower (entryOf acc j)
     + (if bool_decide (start s = j) then uiStakingPower s else 0)
  /\ totalMeStaked (entryOf (addStaker tzOffset acc s) j)
     == totalMeStaked (entryOf acc j)
        + (if bool_decide (start s = j) then uiAmount s else 0).
Proof.
  unfold entryOf at 1 3. rewrite addStaker_lookup.
  case_decide as E; case_bool_decide; try congruence; cbn [default].
  - split; reflexivity.
  - fold (entryOf acc j). split; lra.
Qed.

Lemma addStaker_is_Some acc s j :
  is_Some (addStaker tzOffset acc s !! j) <-> start s = j \/ is_Some (acc !! j).
Proof.
  rewrite addStaker_lookup. case_decide as E.
  - split; [auto|]. intros _. eexists; reflexivity.
  - split; [auto|]. intros [H|H]; [contradiction|exact H].
Qed.

Lemma fold_addStaker l acc j :
  (keyedTotals acc -> keyedTotals (fold_left (addStaker tzOffset) l acc))
  /\ (is_Some (fold_left (addStaker tzOffset) l acc !! j)
      <-> (exists s, s ∈ l /\ start s = j) \/ is_Some (acc !! j))
  /\ totalStakingPower (entryOf (fold_left (addStaker tzOffset) l acc) j)
     == totalStakingPower (entryOf acc j) + bucketSum start uiStakingPower j l
  /\ totalMeStaked (entryOf (fold_left (addStaker tzOffset) l acc) j)
     == totalMeStaked (entryOf acc j) + bucketSum start uiAmount j l.
Proof.
  revert acc. induction l as [|s l IH]; intros acc; cbn [fold_left].
  - split; [auto|]. split.
    + split; [auto|].
      intros [(s & Hs & _)|H]; [apply elem_of_nil in Hs; contradiction|exact H].
    + unfold bucketSum, sumWhere, total. cbn [List.filter foldr]. split; lra.
  - destruct (IH (addStaker tzOffset acc s)) as (K & D & P & M).
    destruct (addStaker_entry acc s j) as [P1 M1].
    split; [auto using addStaker_keyed|]. split; [|split].
    + rewrite D, addStaker_is_Some. split.
      * intros [(s' & Hs' & E)|[E|H]]; [left|left|right; exact H].
        -- exists s'. split; [apply list_elem_of_further, Hs'|exact E].
        -- exists s. split; [apply list_elem_of_here|exact E].
      * intros [(s' & Hs' & E)|H]; [|auto].
        apply elem_of_cons in Hs' as [->|Hs']; [auto|].
        left. exists s'. auto.
    + rewrite P, P1, bucketSum_cons. lra.
    + rewrite M, M1, bucketSum_cons. lra.
Qed.

Lemma keyedTotals_empty : keyedTotals ∅.
Proof. intros k e. rewrite lookup_empty. discriminate. Qed.

(** What the reduce leaves under the key of a day. *)
Lemma dailyAggregation_lookup l j e :
  dailyAggregation tzOffset l !! j = Some e ->
  day e = j
  /\ totalStakingPower e == bucketSum start uiStakingPower j l
  /\ totalMeStaked e == bucketSum start uiAmount j l.
Proof.
  intros H. destruct (fold_addStaker l ∅ j) as (K & _ & P & M).
  fold (dailyAggregation tzOffset l) in K, P, M.
  unfold entryOf in P, M. rewrite H, lookup_empty in P, M. cbn [default] in P, M.
  split; [apply (K keyedTotals_empty), H|]. cbn in P, M. split; lra.
Qed.

Lemma dailyAggregation_keys l j :
  is_Some (dailyAggregation tzOffset l !! j) <-> exists s, s ∈ l /\ start s = j.
Proof.
  destruct (fold_addStaker l ∅ j) as (_ & D & _). unfold dailyAggregation.
  rewrite D, lookup_empty. split; [intros [H|[? H]]; [exact H|discriminate]|auto].
Qed.

Lemma byDay_trans : Transitive byDay.
Proof. intros a b c. unfold byDay. lia. Qed.

Lemma byDay_total : Total byDay.
Proof. intros a b. unfold byDay. lia. Qed.

Lemma cumulate_days_daily a b l : day <$> cumulate a b l = day <$> l.
Proof.
  revert a b. induction l as [|d l IH]; intros a b; cbn; [reflexivity|].
  f_equal. apply IH.
Qed.

Lemma cumulate_lookup_daily a b l i pt :
  cumulate a b l !! i = Some pt ->
  totalStakingPower pt == a + Qsum (totalStakingPower <$> take (S i) l)
  /\ totalMeStaked pt == b + Qsum (totalMeStaked <$> take (S i) l).
Proof.
  revert a b i pt. induction l as [|d l IH]; intros a b i pt; cbn [cumulate].
  - rewrite lookup_nil. discriminate.
  - destruct i as [|i].
    + cbn [lookup list_lookup]. intros [= <-].
      cbn [firstn fmap list_fmap totalStakingPower totalMeStaked].
      rewrite take_0. cbn [fmap list_fmap]. rewrite !Qsum_cons, !Qsum_nil. split; lra.
    + cbn [lookup list_lookup]. intros H. apply IH in H as [H1 H2].
      rewrite H1, H2. cbn [firstn fmap list_fmap]. rewrite !Qsum_cons. split; lra.
Qed.

(** The sorted entries: a strictly increasing run of the days on which
    some record opens, each with the sums of that day. *)
Lemma dailyData_spec l :
  StronglySorted Z.lt (day <$> dailyData tzOffset l)
  /\ (forall k, k ∈ day <$> dailyData tzOffset l <-> exists s, s ∈ l /\ start s = k)
  /\ Forall (fun e =>
       totalStakingPower e == bucketSum start uiStakingPower (day e) l
       /\ totalMeStaked e == bucketSum start uiAmount (day e) l)
     (dailyData tzOffset l).
Proof.
  unfold dailyData. set (m := dailyAggregation tzOffset l).
  set (vals := (map_to_list m).*2).
  assert (Hperm : merge_sort byDay vals ≡ₚ vals) by apply merge_sort_Permutation.
  assert (Hss : StronglySorted byDay (merge_sort byDay vals))
    by (apply StronglySorted_merge_sort; [apply byDay_trans|apply byDay_total]).
  assert (Hin : forall e, e ∈ vals -> m !! day e = Some e).
  { intros e He. apply list_elem_of_fmap in He as ([k e'] & -> & He). cbn.
    apply elem_of_map_to_list in He.
    destruct (dailyAggregation_lookup l k e' He) as [-> _]. exact He. }
  assert (Hdays : day <$> vals = (map_to_list m).*1).
  { unfold vals. rewrite <- list_fmap_compose. apply list_fmap_ext.
    intros i [k e] Hl. cbn.
    assert (He : (k, e) ∈ map_to_list m) by (apply list_elem_of_lookup; eauto).
    apply elem_of_map_to_list in He.
    apply (dailyAggregation_lookup l k e He). }
  assert (Hnd : NoDup (day <$> merge_sort byDay vals)).
  { rewrite Hperm, Hdays. apply NoDup_fst_map_to_list. }
  split; [|split].
  - apply (sorted_distinct_strict day); assumption.
  - intros k. rewrite Hperm, Hdays, map_keys_elem. apply dailyAggregation_keys.
  - rewrite Hperm. apply Forall_forall. intros e He.
    apply (dailyAggregation_lookup l (day e) e (Hin e He)).
Qed.

End Daily.

Section DailyClaims.

Import Events Bucketing DailyChart DailyNotions.
Local Open Scope Q_scope.

Variable tzOffset : Z.

Local Abbreviation start := (startDay tzOffset).

Lemma sorted_lookup {A} (R : relation A) (l : list A) i j a b :
  StronglySorted R l -> (i < j)%nat ->
  l !! i = Some a -> l !! j = Some b -> R a b.
Proof.
  intros Hs Hij Ha Hb. rewrite <- (take_drop j l) in Hs.
  apply (StronglySorted_app_1_elem_of _ _ _ a b Hs).
  - apply list_elem_of_lookup. exists i. rewrite lookup_take_lt by lia. exact Ha.
  - apply list_elem_of_lookup. exists 0%nat. rewrite lookup_drop, Nat.add_0_r. exact Hb.
Qed.

Lemma strictly_sorted_NoDup (l : list Z) : StronglySorted Z.lt l -> NoDup l.
Proof.
  induction 1 as [|a l _ IH Hall]; constructor; [|exact IH].
  intros Hin. rewrite Forall_forall in Hall. specialize (Hall a Hin). lia.
Qed.

(** In a strictly increasing list, the first [i + 1] elements are the
    elements not above the one at position [i]. *)
Lemma strictly_sorted_prefix (l : list Z) i d x :
  StronglySorted Z.lt l -> l !! i = Some d -> x ∈ l ->
  (x ∈ take (S i) l <-> (x <= d)%Z).
Proof.
  intros Hs Hd Hx. split.
  - intros Hin. apply list_elem_of_lookup in Hin as [j Hj].
    pose proof (lookup_lt_Some _ _ _ Hj) as Hlt. rewrite length_take in Hlt.
    rewrite lookup_take_lt in Hj by lia.
    destruct (decide (j = i)) as [->|Hne].
    + rewrite Hd in Hj. injection Hj as ->. lia.
    + pose proof (sorted_lookup Z.lt l j i x d Hs ltac:(lia) Hj Hd). lia.
  - intros Hle. apply list_elem_of_lookup in Hx as [j Hj].
    destruct (decide (j <= i)%nat) as [Hji|Hji].
    + apply list_elem_of_lookup. exists j. rewrite lookup_take_lt by lia. exact Hj.
    + pose proof (sorted_lookup Z.lt l i j d x Hs ltac:(lia) Hd Hj). lia.
Qed.

Lemma sumWhere_ext_in c c' f (l : list Staker) :
  (forall s, s ∈ l -> c s = c' s) -> sumWhere c f l == sumWhere c' f l.
Proof.
  induction l as [|s l IH]; intros H; [reflexivity|].
  rewrite !sumWhere_cons, (H s) by apply list_elem_of_here.
  rewrite IH; [reflexivity|]. intros s' Hs'. apply H, list_elem_of_further, Hs'.
Qed.

Lemma Qsum_by_day (g : DayTotal -> Q) (h : Z -> Q) (l : list DayTotal) :
  Forall (fun e => g e == h (day e)) l ->
  Qsum (g <$> l) == Qsum (h <$> (day <$> l)).
Proof.
  induction 1 as [|e l He _ IH]; cbn [fmap list_fmap]; [reflexivity|].
  rewrite !Qsum_cons, He, IH. reflexivity.
Qed.

(** A point of the cumulative series carries everything that has opened by
    its day. *)
Lemma daily_point (l : list Staker) i pt :
  cumulativeData tzOffset l !! i = Some pt ->
  totalStakingPower pt == sumWhere (openedBy tzOffset (day pt)) uiStakingPower l
  /\ totalMeStaked pt == sumWhere (openedBy tzOffset (day pt)) uiAmount l.
Proof.
  intros Hpt. unfold cumulativeData in Hpt.
  destruct (dailyData_spec tzOffset l) as (Hss & Hkeys & Hvals).
  set (ds := dailyData tzOffset l) in *.
  destruct (cumulate_lookup_daily _ _ _ _ _ Hpt) as [Hp Hm].
  assert (Hday : (day <$> ds) !! i = Some (day pt)).
  { rewrite <- (cumulate_days_daily 0 0 ds), list_lookup_fmap, Hpt. reflexivity. }
  assert (Hnd : NoDup (day <$> take (S i) ds)).
  { rewrite fmap_take.
    eapply sublist_NoDup; [apply strictly_sorted_NoDup, Hss|apply sublist_take]. }
  assert (Hpre : Forall (fun e =>
             totalStakingPower e == bucketSum start uiStakingPower (day e) l
             /\ totalMeStaked e == bucketSum start uiAmount (day e) l)
           (take (S i) ds)) by apply Forall_take, Hvals.
  assert (Hc : forall s, s ∈ l ->
             bool_decide (start s ∈ day <$> take (S i) ds) = openedBy tzOffset (day pt) s).
  { intros s Hs. unfold openedBy. apply bool_decide_ext. rewrite fmap_take.
    apply strictly_sorted_prefix; [exact Hss|exact Hday|].
    apply Hkeys. eauto. }
  split.
  - rewrite Hp, Qplus_0_l.
    rewrite (Qsum_by_day totalStakingPower (fun k => bucketSum start uiStakingPower k l))
      by (eapply Forall_impl; [exact Hpre|]; intros e [H _]; exact H).
    rewrite Qsum_bucketSum_in by exact Hnd. apply sumWhere_ext_in, Hc.
  - rewrite Hm, Qplus_0_l.
    rewrite (Qsum_by_day totalMeStaked (fun k => bucketSum start uiAmount k l))
      by (eapply Forall_impl; [exact Hpre|]; intros e [_ H]; exact H).
    rewrite Qsum_bucketSum_in by exact Hnd. apply sumWhere_ext_in, Hc.
Qed.



End DailyClaims.

Section DailyWitness.

Import Events Bucketing DailyChart DailyNotions.



End DailyWitness.

Section MonthlyWitness.

Import Events Bucketing MonthlyChart.


End MonthlyWitness.

(** ** The average lock duration *)

Section Average.

Local Open Scope Q_scope.

Lemma fold_durations (l : list Staker) (a : Z) :
  fold_left (fun acc s => acc + duration s)%Z l a
  = (a + fold_left (fun acc s => acc + duration s) l 0)%Z.
Proof.
  revert a. induction l as [|s l IH]; intros a; cbn [fold_left]; [lia|].
  rewrite IH, (IH (0 + duration s)%Z). lia.
Qed.

Lemma durations_bounds (l : list Staker) (lo hi : Z) :
  (forall s, s ∈ l -> lo <= duration s <= hi)%Z ->
  (lo * Z.of_nat (length l)
   <= fold_left (fun acc s => acc + duration s) l 0
   <= hi * Z.of_nat (length l))%Z.
Proof.
  induction l as [|s l IH]; intros H; [cbn; lia|].
  cbn [fold_left length]. rewrite fold_durations.
  pose proof (H s (list_elem_of_here _ _)).
  specialize (IH (fun s' Hs' => H s' (list_elem_of_further _ _ _ Hs'))). lia.
Qed.

(** The average lock duration shown on the dashboard lies between the
    shortest and the longest duration of the records. *)
Theorem avgDuration_between (stakers : list Staker) (lo hi : Z) :
  stakers <> [] ->
  (forall s, s ∈ stakers -> lo <= duration s <= hi)%Z ->
  inject_Z lo <= Render.avgDuration stakers
  /\ Render.avgDuration stakers <= inject_Z hi.
Proof.
  intros Hne Hb. unfold Render.avgDuration.
  pose proof (durations_bounds stakers lo hi Hb) as [L U].
  assert (Hn : (0 < Z.of_nat (length stakers))%Z).
  { destruct stakers; [congruence|cbn; lia]. }
  assert (Hq : 0 < inject_Z (Z.of_nat (length stakers))).
  { rewrite (Zlt_Qlt 0) in Hn. exact Hn. }
  split.
  - apply Qle_shift_div_l; [exact Hq|].
    rewrite <- inject_Z_mult, <- Zle_Qle. exact L.
  - apply Qle_shift_div_r; [exact Hq|].
    rewrite <- inject_Z_mult, <- Zle_Qle. exact U.
Qed.

Lemma avgDuration_between_witness :
  inject_Z 15672000 <= Render.avgDuration (stakers mockData)
  /\ Render.avgDuration (stakers mockData) <= inject_Z 31536000.
Proof.
  apply avgDuration_between; [discriminate|].
  intros s Hs. cbn in Hs.
  apply elem_of_cons in Hs as [->|Hs]; [cbn; lia|].
  apply elem_of_cons in Hs as [->|Hs]; [cbn; lia|].
  apply elem_of_nil in Hs. contradiction.
Defined.

End Average.

(** ** The error boundary over time *)

Section BoundaryFacts.

Import Boundary.

Lemma passes_returned st (vs : list Render.view) rest :
  hasError st = false ->
  passes st ((JS.Returned <$> vs) ++ rest)
  = (fst (passes st rest), (Render.Children <$> vs) ++ snd (passes st rest)).
Proof.
  intros Hst. induction vs as [|v vs IH]; cbn [fmap list_fmap app].
  - destruct (passes st rest). reflexivity.
  - cbn [passes]. unfold pass at 1. rewrite Hst. unfold render. rewrite Hst.
    rewrite IH. reflexivity.
Qed.

Lemma passes_after_error st rest :
  hasError st = true ->
  passes st rest
  = (st, replicate (length rest) (Render.SomethingWentWrong (shownMessage st))).
Proof.
  intros Hst. induction rest as [|c rest IH]; [reflexivity|].
  cbn [passes]. unfold pass. rewrite Hst, IH. reflexivity.
Qed.

(** Once the component has thrown, the boundary stays on its failure
    panel: the renders before the first throw are shown as they are, and
    from the first throw on every screen is the panel with the message of
    that first error, whatever the component would return or throw
    afterwards.  The first pass from the initial state is what [index.tsx]
    mounts. *)
Theorem boundary_stays_failed (vs : list Render.view) (e : JS.exn)
    (rest : list (JS.completion Render.view)) :
  passes initial ((JS.Returned <$> vs) ++ JS.Thrown e :: rest)
  = (getDerivedStateFromError e,
     (Render.Children <$> vs)
     ++ replicate (S (length rest))
          (Render.SomethingWentWrong (shownMessage (getDerivedStateFromError e))))
  /\ (forall child, snd (pass initial child) = Render.ErrorBoundary child).
Proof.
  split.
  - rewrite passes_returned by reflexivity. cbn [passes].
    unfold pass at 1 2. cbn [hasError initial].
    rewrite passes_after_error by reflexivity. reflexivity.
  - intros [[m|]|v]; reflexivity.
Qed.

End BoundaryFacts.
